(** * MIND4: optimistic store reconciliation and column reordering

    A shallow embedding of the state handling of [src/App.tsx] (the
    Supabase-backed application shell) and of the column drag-and-drop
    handler of [src/components/CustomerSheet.tsx].

    React state, the two pending-id refs, the timer queue and the log of
    side effects live in one record [World]; every handler is a function in
    a small state monad over it.  Replies of the remote gateway, the time
    stamp strings and the draws of the random source are inputs.  An
    [await] splits a handler in two: the part run at the call and the part
    run on the reply.  A state setter applies its updater at the call; when
    React applies a queued update, relative to the requests, is told by the
    module [React], which keeps the queue. *)

From stdpp Require Import gmap strings list fin_maps pretty sorting.

Open Scope string_scope.
Open Scope Z_scope.
Open Scope list_scope.

(** ** Values and records *)

(** Scalar values held in the open-ended parts of a record. *)
Inductive JsVal :=
| VUndefined
| VNull
| VBool (b : bool)
| VNum (n : Z)
| VStr (s : string).

#[global] Instance JsVal_eq_dec : EqDecision JsVal.
Proof. solve_decision. Defined.

(** An identifier as the database sends it: a number (int8) or a text. *)
Inductive RawId :=
| IdNum (n : Z)
| IdStr (s : string).

#[global] Instance RawId_eq_dec : EqDecision RawId.
Proof. solve_decision. Defined.

(** [String(x)] on an identifier. *)
Definition String_ (x : RawId) : string :=
  match x with
  | IdNum n => pretty n
  | IdStr s => s
  end.

(** [Customer]: [id], the nested [data] blob keyed by column id, and the
    remaining top-level fields (name, status, created_at, ...). *)
Record Customer := mkCustomer {
  c_id : string;
  c_rest : gmap string JsVal;
  c_data : gmap string JsVal
}.

#[global] Instance Customer_eq_dec : EqDecision Customer.
Proof. solve_decision. Defined.

(** A customer row as fetched or pushed by the server. *)
Record RawCustomer := mkRawCustomer {
  rc_id : RawId;
  rc_rest : gmap string JsVal;
  rc_data : gmap string JsVal
}.

(** [Omit<Customer, 'id' | 'created_at'>], also the insert payload. *)
Record CustomerDraft := mkCustomerDraft {
  cd_rest : gmap string JsVal;
  cd_data : gmap string JsVal
}.

(** [Partial<Customer>]. *)
Record PartialCustomer := mkPartialCustomer {
  pc_id : option string;
  pc_rest : gmap string JsVal;
  pc_data : option (gmap string JsVal)
}.

Record Task := mkTask {
  t_id : string;
  t_customerId : string;
  t_rest : gmap string JsVal
}.

#[global] Instance Task_eq_dec : EqDecision Task.
Proof. solve_decision. Defined.

Record RawTask := mkRawTask {
  rt_id : RawId;
  rt_customerId : RawId;
  rt_rest : gmap string JsVal
}.

(** [Omit<Task, 'id' | 'created_at'>], also the insert payload. *)
Record TaskDraft := mkTaskDraft {
  td_customerId : string;
  td_rest : gmap string JsVal
}.

(** [Partial<Task>]. *)
Record PartialTask := mkPartialTask {
  pt_id : option string;
  pt_customerId : option string;
  pt_rest : gmap string JsVal
}.

Inductive ColumnType := CText | CSelect | CCurrency | CDate | CPhone | CPerson.

#[global] Instance ColumnType_eq_dec : EqDecision ColumnType.
Proof. solve_decision. Defined.

Record Column := mkColumn {
  col_id : string;
  col_title : string;
  col_type : ColumnType;
  col_order : Z;
  col_options : option (list string);
  col_removable : bool
}.

#[global] Instance Column_eq_dec : EqDecision Column.
Proof. solve_decision. Defined.

(** Employees and template tasks: an id and the other fields. *)
Record Entity := mkEntity {
  e_id : string;
  e_rest : gmap string JsVal
}.

#[global] Instance Entity_eq_dec : EqDecision Entity.
Proof. solve_decision. Defined.

Record RawEntity := mkRawEntity {
  re_id : RawId;
  re_rest : gmap string JsVal
}.

(** [{ ...c, id: String(c.id) }] *)
Definition normalize (c : RawCustomer) : Customer :=
  mkCustomer (String_ (rc_id c)) (rc_rest c) (rc_data c).

(** [{ ...t, id: String(t.id), customerId: String(t.customerId) }] *)
Definition normalizeTask (t : RawTask) : Task :=
  mkTask (String_ (rt_id t)) (String_ (rt_customerId t)) (rt_rest t).

Definition normalizeEntity (e : RawEntity) : Entity :=
  mkEntity (String_ (re_id e)) (re_rest e).

(** ** The refresh merge of [fetchAllData] *)

(** [fetched.forEach(f => { if (pending.has(f.id)) pending.delete(f.id) })] *)
Definition clearIfConfirmed (fetchedIds : list string) (pending : gset string)
  : gset string :=
  foldl (λ p f, if decide (f ∈ p) then p ∖ {[f]} else p) pending fetchedIds.

(** The updater passed to [setCustomers] in [fetchAllData]; it returns the
    pending set as the updater leaves it and the new collection. *)
Definition refreshCustomers (pending : gset string) (prev : list Customer)
    (customersData : option (list RawCustomer)) : gset string * list Customer :=
  let fetched := normalize <$> default [] customersData in
  let pending' := clearIfConfirmed (c_id <$> fetched) pending in
  let pendingItems :=
    filter (λ c, c_id c ∈ pending' ∧ ¬ Exists (λ f, c_id f = c_id c) fetched) prev in
  (pending', fetched ++ pendingItems).

(** The updater passed to [setTasks] in [fetchAllData]. *)
Definition refreshTasks (pending : gset string) (prev : list Task)
    (tasksData : option (list RawTask)) : gset string * list Task :=
  let fetched := normalizeTask <$> default [] tasksData in
  let pending' := clearIfConfirmed (t_id <$> fetched) pending in
  let pendingItems :=
    filter (λ t, t_id t ∈ pending' ∧ ¬ Exists (λ f, t_id f = t_id t) fetched) prev in
  (pending', fetched ++ pendingItems).


(** ** Change-feed payloads *)

(** A [postgres_changes] payload: the event type with the part of the
    payload its branch reads ([payload.new], or the id of [payload.old]). *)
Inductive Change (R I : Type) :=
| INSERT (new : R)
| UPDATE (new : R)
| DELETE (old_id : I).
Arguments INSERT {R I} new.
Arguments UPDATE {R I} new.
Arguments DELETE {R I} old_id.

(** The updaters of [handleCustomerChange]. *)
Definition customerChange (payload : Change RawCustomer RawId)
    (c : list Customer) : list Customer :=
  match payload with
  | INSERT new =>
      let newId := String_ (rc_id new) in
      if decide (Exists (λ existing, c_id existing = newId) c) then c
      else c ++ [normalize new]
  | UPDATE new =>
      (λ item, if decide (c_id item = String_ (rc_id new))
               then normalize new else item) <$> c
  | DELETE old_id => filter (λ item, c_id item ≠ String_ old_id) c
  end.

(** The updaters of [handleTaskChange]. *)
Definition taskChange (payload : Change RawTask RawId)
    (t : list Task) : list Task :=
  match payload with
  | INSERT new => t ++ [normalizeTask new]
  | UPDATE new =>
      (λ item, if decide (t_id item = String_ (rt_id new))
               then normalizeTask new else item) <$> t
  | DELETE old_id => filter (λ item, t_id item ≠ String_ old_id) t
  end.

(** The updaters of [handleColumnChange]; ids are compared as they come. *)
Definition columnChange (payload : Change Column string)
    (c : list Column) : list Column :=
  match payload with
  | INSERT new => c ++ [new]
  | UPDATE new =>
      (λ item, if decide (col_id item = col_id new) then new else item) <$> c
  | DELETE old_id => filter (λ item, col_id item ≠ old_id) c
  end.

(** The updaters of [handleEmployeeChange] and [handleTemplateTaskChange],
    which have the same text. *)
Definition entityChange (payload : Change RawEntity RawId)
    (e : list Entity) : list Entity :=
  match payload with
  | INSERT new => e ++ [normalizeEntity new]
  | UPDATE new =>
      (λ item, if decide (e_id item = String_ (re_id new))
               then normalizeEntity new else item) <$> e
  | DELETE old_id => filter (λ item, e_id item ≠ String_ old_id) e
  end.

(** ** The world: React state, refs, timers and the effect log *)

(** Requests sent to the Supabase client. *)
Inductive Request :=
| InsertCustomer (row : CustomerDraft)
| InsertTask (row : TaskDraft)
| SelectCustomerData (id : string)
| UpdateCustomer (id : string) (fields : PartialCustomer)
| UpdateTask (id : string) (fields : PartialTask)
| DeleteTasksOfCustomer (customerId : string)
| DeleteCustomer (id : string)
| DeleteTask (id : string).

(** A reply [{ data, error }]; an error is kept as its [message]. *)
Record Reply (A : Type) := mkReply {
  r_data : option A;
  r_error : option string
}.
Arguments mkReply {A} r_data r_error.
Arguments r_data {A} _.
Arguments r_error {A} _.

(** The closures handed to [setTimeout] by the two create handlers. *)
Inductive TimerAction :=
| ReleaseCustomer (newId returnedId : string)
| ReleaseTask (newId returnedId : string).

Inductive Effect :=
| StoreCustomers
| StoreTasks
| Remote (r : Request)
| Alert (msg : string)
| ConsoleError (msg : string)
| SetTimeout (ms : Z).

Record World := mkWorld {
  customers : list Customer;
  columns : list Column;
  tasks : list Task;
  employees : list Entity;
  templateTasks : list Entity;
  pendingAdds : gset string;
  pendingTaskAdds : gset string;
  clock : Z;
  timers : list (Z * TimerAction);
  trace : list Effect
}.

Definition M (A : Type) : Type := World → A * World.

#[global] Instance M_ret : MRet M := λ A a w, (a, w).
#[global] Instance M_bind : MBind M :=
  λ A B f m w, let '(a, w') := m w in f a w'.

Definition exec {A} (m : M A) (w : World) : World := (m w).2.

Definition emit (e : Effect) : M unit := λ w,
  (tt, mkWorld (customers w) (columns w) (tasks w) (employees w)
         (templateTasks w) (pendingAdds w) (pendingTaskAdds w) (clock w)
         (timers w) (trace w ++ [e])).

Definition modifyCustomers (f : list Customer → list Customer) : M unit := λ w,
  (tt, mkWorld (f (customers w)) (columns w) (tasks w) (employees w)
         (templateTasks w) (pendingAdds w) (pendingTaskAdds w) (clock w)
         (timers w) (trace w)).

Definition modifyTasks (f : list Task → list Task) : M unit := λ w,
  (tt, mkWorld (customers w) (columns w) (f (tasks w)) (employees w)
         (templateTasks w) (pendingAdds w) (pendingTaskAdds w) (clock w)
         (timers w) (trace w)).

Definition setColumns (f : list Column → list Column) : M unit := λ w,
  (tt, mkWorld (customers w) (f (columns w)) (tasks w) (employees w)
         (templateTasks w) (pendingAdds w) (pendingTaskAdds w) (clock w)
         (timers w) (trace w)).

Definition setEmployees (f : list Entity → list Entity) : M unit := λ w,
  (tt, mkWorld (customers w) (columns w) (tasks w) (f (employees w))
         (templateTasks w) (pendingAdds w) (pendingTaskAdds w) (clock w)
         (timers w) (trace w)).

Definition setTemplateTasks (f : list Entity → list Entity) : M unit := λ w,
  (tt, mkWorld (customers w) (columns w) (tasks w) (employees w)
         (f (templateTasks w)) (pendingAdds w) (pendingTaskAdds w) (clock w)
         (timers w) (trace w)).

(** [pendingAddsRef.current] and [pendingTaskAddsRef.current]. *)
Definition modifyPendingAdds (f : gset string → gset string) : M unit := λ w,
  (tt, mkWorld (customers w) (columns w) (tasks w) (employees w)
         (templateTasks w) (f (pendingAdds w)) (pendingTaskAdds w) (clock w)
         (timers w) (trace w)).

Definition modifyPendingTaskAdds (f : gset string → gset string) : M unit := λ w,
  (tt, mkWorld (customers w) (columns w) (tasks w) (employees w)
         (templateTasks w) (pendingAdds w) (f (pendingTaskAdds w)) (clock w)
         (timers w) (trace w)).

Definition setTimers (f : list (Z * TimerAction) → list (Z * TimerAction))
    (now : Z) : M unit := λ w,
  (tt, mkWorld (customers w) (columns w) (tasks w) (employees w)
         (templateTasks w) (pendingAdds w) (pendingTaskAdds w) now
         (f (timers w)) (trace w)).

Definition getColumns : M (list Column) := λ w, (columns w, w).

(** [Date.now()] *)
Definition Date_now : M Z := λ w, (clock w, w).

(** A state setter called with an updater.  Here the updater is applied at
    the call and the call is logged: the collections of a world are the ones
    React shows once it has rendered every update queued so far.  When an
    update is applied, relative to the requests, is the matter of [React]
    below, where the setter only queues the updater. *)
Definition setCustomers (f : list Customer → list Customer) : M unit :=
  modifyCustomers f;; emit StoreCustomers.

Definition setTasks (f : list Task → list Task) : M unit :=
  modifyTasks f;; emit StoreTasks.

Definition remote (r : Request) : M unit := emit (Remote r).
Definition alert (msg : string) : M unit := emit (Alert msg).
Definition console_error (msg : string) : M unit := emit (ConsoleError msg).

(** [setTimeout(cb, ms)]: the callback is queued for [clock + ms]. *)
Definition setTimeout (cb : TimerAction) (ms : Z) : M unit :=
  now ← Date_now;
  setTimers (λ q, q ++ [(now + ms, cb)]) now;;
  emit (SetTimeout ms).

(** ** Handlers of [src/App.tsx] *)

(** [fetchAllData], from the point where the selects have resolved: the
    arguments are the [data] fields of the replies.  The loading flag and
    the two singleton rows (settings, company info) are view state and are
    left out. *)
Definition fetchAllData (customersData : option (list RawCustomer))
    (columnsData : option (list Column)) (tasksData : option (list RawTask))
    (employeesData templateTasksData : option (list RawEntity)) : M unit :=
  (λ w, let '(p, cs) := refreshCustomers (pendingAdds w) (customers w) customersData in
        (modifyPendingAdds (λ _, p);; setCustomers (λ _, cs)) w);;
  setColumns (λ _, default [] columnsData);;
  (λ w, let '(p, ts) := refreshTasks (pendingTaskAdds w) (tasks w) tasksData in
        (modifyPendingTaskAdds (λ _, p);; setTasks (λ _, ts)) w);;
  setEmployees (λ _, normalizeEntity <$> default [] employeesData);;
  setTemplateTasks (λ _, normalizeEntity <$> default [] templateTasksData).

Definition handleCustomerChange (payload : Change RawCustomer RawId) : M unit :=
  setCustomers (customerChange payload).

Definition handleTaskChange (payload : Change RawTask RawId) : M unit :=
  setTasks (taskChange payload).

Definition handleColumnChange (payload : Change Column string) : M unit :=
  setColumns (columnChange payload).

Definition handleEmployeeChange (payload : Change RawEntity RawId) : M unit :=
  setEmployees (entityChange payload).

Definition handleTemplateTaskChange (payload : Change RawEntity RawId) : M unit :=
  setTemplateTasks (entityChange payload).

Definition newline : string := String (Ascii.ascii_of_nat 10%nat) EmptyString.

(** [`c_${Date.now()}_${Math.floor(Math.random() * 1000)}`]; [rnd] is the
    floored draw. *)
Definition customerLocalId (now rnd : Z) : string :=
  "c_" +:+ pretty now +:+ "_" +:+ pretty rnd.

Definition taskLocalId (now rnd : Z) : string :=
  "t_" +:+ pretty now +:+ "_" +:+ pretty rnd.

(** The property names an object literal inherits from [Object.prototype].
    Reading one of them on an object that has no own property of that name
    gives the inherited function (for [__proto__]: the prototype), never
    [undefined]. *)
Definition objectPrototypeNames : list string :=
  ["constructor"; "hasOwnProperty"; "isPrototypeOf"; "propertyIsEnumerable";
   "toLocaleString"; "toString"; "valueOf"; "__proto__";
   "__defineGetter__"; "__defineSetter__"; "__lookupGetter__";
   "__lookupSetter__"].

(** [columns.forEach(col => { if (initialData[col.id] === undefined)
    initialData[col.id] = '' })], where [initialData] is the object literal
    [{ ...customerData.data }].  The read [initialData[col.id]] goes through
    the prototype chain: an own property decides, and where there is none
    the read is [undefined] unless the name is inherited. *)
Definition fillInitialData (cols : list Column) (data : gmap string JsVal)
  : gmap string JsVal :=
  foldl (λ d col,
           match d !! col_id col with
           | Some VUndefined => <[col_id col := VStr ""]> d
           | Some _ => d
           | None =>
               if decide (col_id col ∈ objectPrototypeNames) then d
               else <[col_id col := VStr ""]> d
           end) data cols.

(** What the loop leaves under a column identifier [k], given what the
    draft has there. *)
Definition initialValue (k : string) (v : option JsVal) : option JsVal :=
  match v with
  | Some VUndefined => Some (VStr "")
  | Some v => Some v
  | None => if decide (k ∈ objectPrototypeNames) then None else Some (VStr "")
  end.

(** [{ ...customerData, id: newId, data: initialData,
       created_at: new Date().toISOString() }]; [iso] is the time stamp. *)
Definition newCustomer (newId : string) (customerData : CustomerDraft)
    (cols : list Column) (iso : string) : Customer :=
  let initialData := fillInitialData cols (cd_data customerData) in
  mkCustomer newId (<["created_at" := VStr iso]> (cd_rest customerData))
             initialData.

(** [const { id: _, ...dbPayload } = newCustomer] *)
Definition customerPayload (c : Customer) : CustomerDraft :=
  mkCustomerDraft (c_rest c) (c_data c).

(** [handleAddCustomer] up to the [await]: the id, the pending mark, the
    optimistic append and the insert request. *)
Definition addCustomerOptimistic (customerData : CustomerDraft) (rnd : Z)
    (iso : string) : M string :=
  now ← Date_now;
  let newId := customerLocalId now rnd in
  modifyPendingAdds (λ p, {[newId]} ∪ p);;
  cols ← getColumns;
  let newCustomer := newCustomer newId customerData cols iso in
  setCustomers (λ prev, prev ++ [newCustomer]);;
  remote (InsertCustomer (customerPayload newCustomer));;
  mret newId.

(** [{ ...data, id: returnedId }] *)
Definition confirmedCustomer (data : RawCustomer) (returnedId : string) : Customer :=
  mkCustomer returnedId (rc_rest data) (rc_data data).

(** [handleAddCustomer] after the [await], on the reply of the insert. *)
Definition addCustomerSettle (newId : string) (reply : Reply RawCustomer)
  : M unit :=
  match r_error reply with
  | Some message =>
      console_error "Error adding customer:";;
      alert ("登録に失敗しました。" +:+ newline +:+ "エラー: " +:+ message);;
      setCustomers (filter (λ c, c_id c ≠ newId));;
      modifyPendingAdds (λ p, p ∖ {[newId]})
  | None =>
      match r_data reply with
      | Some data =>
          let returnedId := String_ (rc_id data) in
          (if decide (returnedId ≠ newId) then
             modifyPendingAdds (λ p, {[returnedId]} ∪ p);;
             setCustomers (fmap (λ c, if decide (c_id c = newId)
                                      then confirmedCustomer data returnedId
                                      else c));;
             modifyPendingAdds (λ p, p ∖ {[newId]})
           else mret tt);;
          setTimeout (ReleaseCustomer newId returnedId) 5000
      | None => mret tt
      end
  end.

Definition handleAddCustomer (customerData : CustomerDraft) (rnd : Z)
    (iso : string) (reply : Reply RawCustomer) : M unit :=
  newId ← addCustomerOptimistic customerData rnd iso;
  addCustomerSettle newId reply.


(** [{ ...c, ...updatedFields, data: updatedFields.data
       ? { ...c.data, ...updatedFields.data } : c.data }] *)
Definition applyCustomerUpdate (updatedFields : PartialCustomer) (c : Customer)
  : Customer :=
  mkCustomer (default (c_id c) (pc_id updatedFields))
             (pc_rest updatedFields ∪ c_rest c)
             (match pc_data updatedFields with
              | Some d => d ∪ c_data c
              | None => c_data c
              end).

(** [handleUpdateCustomer]; [current] is the reply of the select of the
    stored [data] blob, read only when the update names [data]. *)
Definition handleUpdateCustomer (customerId : string)
    (updatedFields : PartialCustomer) (current : Reply (gmap string JsVal))
  : M unit :=
  setCustomers (fmap (λ c, if decide (c_id c = customerId)
                           then applyCustomerUpdate updatedFields c else c));;
  match pc_data updatedFields with
  | Some d =>
      remote (SelectCustomerData customerId);;
      match r_error current, r_data current with
      | None, Some currentData =>
          let newData := d ∪ currentData in
          remote (UpdateCustomer customerId
                    (mkPartialCustomer (pc_id updatedFields)
                       (pc_rest updatedFields) (Some newData)))
      | _, _ => mret tt
      end
  | None => remote (UpdateCustomer customerId updatedFields)
  end.

Definition handleDeleteCustomer (customerId : string) : M unit :=
  setCustomers (filter (λ c, c_id c ≠ customerId));;
  remote (DeleteTasksOfCustomer customerId);;
  remote (DeleteCustomer customerId).

(** [{ ...task, id: newId, created_at: new Date().toISOString() }] *)
Definition newTask (newId : string) (task : TaskDraft) (iso : string) : Task :=
  mkTask newId (td_customerId task) (<["created_at" := VStr iso]> (td_rest task)).

(** [const { id: _, ...dbPayload } = newTask] *)
Definition taskPayload (t : Task) : TaskDraft :=
  mkTaskDraft (t_customerId t) (t_rest t).

(** [handleAddTask] up to the [await]. *)
Definition addTaskOptimistic (task : TaskDraft) (rnd : Z) (iso : string)
  : M string :=
  now ← Date_now;
  let newId := taskLocalId now rnd in
  modifyPendingTaskAdds (λ p, {[newId]} ∪ p);;
  let newTask := newTask newId task iso in
  setTasks (λ prev, prev ++ [newTask]);;
  remote (InsertTask (taskPayload newTask));;
  mret newId.

(** [{ ...t, ...data, id: returnedId, customerId: String(data.customerId) }] *)
Definition confirmedTask (t : Task) (data : RawTask) (returnedId : string) : Task :=
  mkTask returnedId (String_ (rt_customerId data)) (rt_rest data ∪ t_rest t).

(** [handleAddTask] after the [await]. *)
Definition addTaskSettle (newId : string) (reply : Reply RawTask) : M unit :=
  match r_error reply with
  | Some message =>
      console_error "Error adding task:";;
      alert ("タスク登録失敗: " +:+ message);;
      modifyPendingTaskAdds (λ p, p ∖ {[newId]});;
      setTasks (filter (λ t, t_id t ≠ newId))
  | None =>
      match r_data reply with
      | Some data =>
          let returnedId := String_ (rt_id data) in
          (if decide (returnedId ≠ newId) then
             modifyPendingTaskAdds (λ p, {[returnedId]} ∪ p);;
             setTasks (fmap (λ t, if decide (t_id t = newId)
                                  then confirmedTask t data returnedId
                                  else t));;
             modifyPendingTaskAdds (λ p, p ∖ {[newId]})
           else mret tt);;
          setTimeout (ReleaseTask newId returnedId) 5000
      | None => mret tt
      end
  end.

Definition handleAddTask (task : TaskDraft) (rnd : Z) (iso : string)
    (reply : Reply RawTask) : M unit :=
  newId ← addTaskOptimistic task rnd iso;
  addTaskSettle newId reply.


Definition handleDeleteTask (taskId : string) : M unit :=
  setTasks (filter (λ t, t_id t ≠ taskId));;
  remote (DeleteTask taskId).

(** [{ ...t, ...updatedFields }] *)
Definition applyTaskUpdate (updatedFields : PartialTask) (t : Task) : Task :=
  mkTask (default (t_id t) (pt_id updatedFields))
         (default (t_customerId t) (pt_customerId updatedFields))
         (pt_rest updatedFields ∪ t_rest t).

Definition handleUpdateTask (taskId : string) (updatedFields : PartialTask)
  : M unit :=
  setTasks (fmap (λ t, if decide (t_id t = taskId)
                       then applyTaskUpdate updatedFields t else t));;
  remote (UpdateTask taskId updatedFields).

(** ** Timers *)




(** ** Reading the effect log *)

(** The requests sent to the gateway, in order. *)
Definition requests (tr : list Effect) : list Request :=
  omap (λ e, match e with Remote r => Some r | _ => None end) tr.

(** The alerts shown to the user, in order. *)
Definition alerts (tr : list Effect) : list string :=
  omap (λ e, match e with Alert msg => Some msg | _ => None end) tr.

(** The collections of the store, as the views read them. *)
Definition store (w : World)
  : list Customer * list Column * list Task * list Entity * list Entity :=
  (customers w, columns w, tasks w, employees w, templateTasks w).

Definition isInsert {R I : Type} (payload : Change R I) : bool :=
  match payload with INSERT _ => true | _ => false end.



(** ** Column drag and drop ([src/components/CustomerSheet.tsx]) *)

(** Insertion of a column before the first one whose [order] is not
    smaller. *)
Fixpoint insertByOrder (c : Column) (l : list Column) : list Column :=
  match l with
  | [] => [c]
  | d :: rest =>
      if decide (col_order c ≤ col_order d) then c :: d :: rest
      else d :: insertByOrder c rest
  end.

(** [[...columns].sort((a, b) => a.order - b.order)]: the sort is stable,
    columns of equal [order] keep their relative position. *)
Definition sortedColumns (columns : list Column) : list Column :=
  foldr insertByOrder [] columns.

(** [l.findIndex(c => c.id === id)], [-1] when no column matches. *)
Definition findIndex (id : string) (l : list Column) : Z :=
  match list_find (λ c, col_id c = id) l with
  | Some (i, _) => Z.of_nat i
  | None => -1
  end.

(** The position at which [splice] starts, for a list of length [len]. *)
Definition spliceStart (start : Z) (len : nat) : nat :=
  if decide (start < 0) then Z.to_nat (Z.max (Z.of_nat len + start) 0)
  else Nat.min (Z.to_nat start) len.

(** [l.splice(start, 1)]: the removed elements, and the list afterwards. *)
Definition spliceOut (start : Z) (l : list Column) : list Column * list Column :=
  let i := spliceStart start (length l) in
  (take 1 (drop i l), take i l ++ drop (S i) l).

(** [l.splice(start, 0, x)]: the list afterwards. *)
Definition spliceIn (start : Z) (x : Column) (l : list Column) : list Column :=
  let i := spliceStart start (length l) in
  take i l ++ x :: drop i l.

(** [{ ...col, order }] *)
Definition withOrder (order : Z) (col : Column) : Column :=
  mkColumn (col_id col) (col_title col) (col_type col) order
           (col_options col) (col_removable col).

(** [handleDrop]: the list handed to [onUpdateColumns], or [None] when the
    handler returns without calling it.  [removed] is missing only when
    there is no column at all, and then the final [map] has nothing to
    visit. *)
Definition handleDrop (columns : list Column) (draggingColumnId : option string)
    (dropIndex : option nat) : option (list Column) :=
  match draggingColumnId, dropIndex with
  | Some id, Some dropIndex =>
      if decide (id = "") then None
      else
        let sorted := sortedColumns columns in
        let startIndex := findIndex id sorted in
        let '(removed, rest) := spliceOut startIndex sorted in
        let newColumnsOrder :=
          match removed with
          | r :: _ => spliceIn (Z.of_nat dropIndex) r rest
          | [] => rest
          end in
        Some ((λ col, withOrder (findIndex (col_id col) newColumnsOrder) col)
                <$> columns)
  | _, _ => None
  end.

(** ** More of [src/App.tsx] *)

(** The updater of [handleUpdateCustomerData]:
    [{ ...c, data: { ...c.data, [field]: value } }] for the matching id. *)
Definition setCustomerField (customerId field : string) (value : JsVal)
    (c : Customer) : Customer :=
  if decide (c_id c = customerId)
  then mkCustomer (c_id c) (c_rest c) (<[field := value]> (c_data c))
  else c.

(** [handleUpdateCustomerData]; [current] is the reply of the select of the
    stored [data] blob. *)
Definition handleUpdateCustomerData (customerId field : string) (value : JsVal)
    (current : Reply (gmap string JsVal)) : M unit :=
  setCustomers (fmap (setCustomerField customerId field value));;
  remote (SelectCustomerData customerId);;
  match r_error current, r_data current with
  | None, Some currentData =>
      let newData := <[field := value]> currentData in
      remote (UpdateCustomer customerId (mkPartialCustomer None ∅ (Some newData)))
  | _, _ => mret tt
  end.

(** ** More of [src/components/CustomerSheet.tsx] *)

(** [activeTab]: ['All'] or a customer status. *)
Inductive Tab :=
| All
| Status (s : string).

Module Sheet.

(** [visibleColumns]: the sorted columns, without the ones hidden for the
    active tab. *)
Definition visibleColumns (columns : list Column)
    (hiddenColumns : gmap string (list string)) (activeTab : Tab) : list Column :=
  match activeTab with
  | All => sortedColumns columns
  | Status s =>
      match hiddenColumns !! s with
      | None => sortedColumns columns
      | Some hiddenIds =>
          filter (λ col, col_id col ∉ hiddenIds) (sortedColumns columns)
      end
  end.

(** [hiddenForCurrentTab] *)
Definition hiddenForCurrentTab (columns : list Column)
    (hiddenColumns : gmap string (list string)) (activeTab : Tab) : list Column :=
  match activeTab with
  | All => []
  | Status s =>
      match hiddenColumns !! s with
      | None => []
      | Some hiddenIds => filter (λ c, col_id c ∈ hiddenIds) columns
      end
  end.

(** [handleHideColumn]: the map handed to [onUpdateHiddenColumns], [None]
    when the handler returns without calling it. *)
Definition handleHideColumn (hiddenColumns : gmap string (list string))
    (activeTab : Tab) (columnId : string) : option (gmap string (list string)) :=
  match activeTab with
  | All => None
  | Status s =>
      Some (<[s := default [] (hiddenColumns !! s) ++ [columnId]]> hiddenColumns)
  end.

(** [handleShowColumn] *)
Definition handleShowColumn (hiddenColumns : gmap string (list string))
    (activeTab : Tab) (columnId : string) : option (gmap string (list string)) :=
  match activeTab with
  | All => None
  | Status s =>
      Some (<[s := filter (λ id, id ≠ columnId) (default [] (hiddenColumns !! s))]>
              hiddenColumns)
  end.

(** [handleAddColumn]: the column handed to [onAddColumn], [None] when the
    name is empty.  [now] is [Date.now()]. *)
Definition handleAddColumn (columns : list Column) (newColName : string)
    (newColType : ColumnType) (now : Z) : option Column :=
  if decide (newColName = "") then None
  else Some (mkColumn ("col_" +:+ pretty now) newColName newColType
               (Z.of_nat (length columns)) (Some []) true).




End Sheet.


(** The updater of [handleAddColumn] of [src/App.tsx]. *)
Definition appendColumn (column : Column) (prev : list Column) : list Column :=
  prev ++ [column].

(** ** The offline variant of the application shell

    The handlers of the in-memory [App] ([src/unnamed/part_001]): plain
    state updates, no gateway. *)
Module Offline.

(** [{ ...c, ...updatedFields }] *)
Definition applyCustomerUpdate (updatedFields : PartialCustomer) (c : Customer)
  : Customer :=
  mkCustomer (default (c_id c) (pc_id updatedFields))
             (pc_rest updatedFields ∪ c_rest c)
             (default (c_data c) (pc_data updatedFields)).

Definition handleUpdateCustomer (customerId : string)
    (updatedFields : PartialCustomer) : M unit :=
  modifyCustomers (fmap (λ c, if decide (c_id c = customerId)
                              then applyCustomerUpdate updatedFields c else c)).

Definition handleDeleteCustomer (customerId : string) : M unit :=
  modifyCustomers (filter (λ c, c_id c ≠ customerId));;
  modifyTasks (filter (λ t, t_customerId t ≠ customerId)).

End Offline.

(** ** Runs of change-feed events *)

(** The identifier a customer change-feed event is about. *)
Definition customerChangeId (payload : Change RawCustomer RawId) : string :=
  match payload with
  | INSERT new | UPDATE new => String_ (rc_id new)
  | DELETE old_id => String_ old_id
  end.

(** The customer handler run on a sequence of events, in order. *)
Fixpoint handleCustomerChanges (payloads : list (Change RawCustomer RawId))
  : M unit :=
  match payloads with
  | [] => mret tt
  | payload :: rest => handleCustomerChange payload;; handleCustomerChanges rest
  end.

(** ** State setters and the render

    [setCustomers(updater)] and [setTasks(updater)] hand the updater to
    React, which queues it and applies the queue, in order, when it next
    renders the component.  The handlers above apply the updater at the
    call.  Here the mutation handlers are read as the sequence of their
    calls and the queue is kept, so that the collection shown when a request
    is issued can be told from the one the next render will show. *)

Module React.

(** The calls of a mutation handler, in program order. *)
Inductive Call :=
| CSetCustomers (updater : list Customer → list Customer)
| CSetTasks (updater : list Task → list Task)
| CRequest (r : Request)
| CPendingAdds (f : gset string → gset string)
| CPendingTaskAdds (f : gset string → gset string)
| CConsoleError (msg : string)
| CAlert (msg : string)
| CSetTimeout (cb : TimerAction) (ms : Z).

(** [handleAddCustomer] after the [await], on the reply of the insert. *)
Definition addCustomerSettle (newId : string) (reply : Reply RawCustomer)
  : list Call :=
  match r_error reply with
  | Some message =>
      [CConsoleError "Error adding customer:";
       CAlert ("登録に失敗しました。" +:+ newline +:+ "エラー: " +:+ message);
       CSetCustomers (filter (λ c, c_id c ≠ newId));
       CPendingAdds (λ p, p ∖ {[newId]})]
  | None =>
      match r_data reply with
      | Some data =>
          let returnedId := String_ (rc_id data) in
          (if decide (returnedId ≠ newId) then
             [CPendingAdds (λ p, {[returnedId]} ∪ p);
              CSetCustomers (fmap (λ c, if decide (c_id c = newId)
                                        then confirmedCustomer data returnedId
                                        else c));
              CPendingAdds (λ p, p ∖ {[newId]})]
           else [])
          ++ [CSetTimeout (ReleaseCustomer newId returnedId) 5000]
      | None => []
      end
  end.

(** [handleAddCustomer]; [now] is [Date.now()] and [columns] the column
    list of the render the handler was created in. *)
Definition handleAddCustomer (now : Z) (columns : list Column)
    (customerData : CustomerDraft) (rnd : Z) (iso : string)
    (reply : Reply RawCustomer) : list Call :=
  let newId := customerLocalId now rnd in
  let newCustomer := newCustomer newId customerData columns iso in
  [CPendingAdds (λ p, {[newId]} ∪ p);
   CSetCustomers (λ prev, prev ++ [newCustomer]);
   CRequest (InsertCustomer (customerPayload newCustomer))]
  ++ addCustomerSettle newId reply.

Definition handleUpdateCustomer (customerId : string)
    (updatedFields : PartialCustomer) (current : Reply (gmap string JsVal))
  : list Call :=
  CSetCustomers (fmap (λ c, if decide (c_id c = customerId)
                            then applyCustomerUpdate updatedFields c else c))
  :: match pc_data updatedFields with
     | Some d =>
         CRequest (SelectCustomerData customerId)
         :: match r_error current, r_data current with
            | None, Some currentData =>
                let newData := d ∪ currentData in
                [CRequest (UpdateCustomer customerId
                             (mkPartialCustomer (pc_id updatedFields)
                                (pc_rest updatedFields) (Some newData)))]
            | _, _ => []
            end
     | None => [CRequest (UpdateCustomer customerId updatedFields)]
     end.

Definition handleDeleteCustomer (customerId : string) : list Call :=
  [CSetCustomers (filter (λ c, c_id c ≠ customerId));
   CRequest (DeleteTasksOfCustomer customerId);
   CRequest (DeleteCustomer customerId)].

(** [handleAddTask] after the [await]. *)
Definition addTaskSettle (newId : string) (reply : Reply RawTask) : list Call :=
  match r_error reply with
  | Some message =>
      [CConsoleError "Error adding task:";
       CAlert ("タスク登録失敗: " +:+ message);
       CPendingTaskAdds (λ p, p ∖ {[newId]});
       CSetTasks (filter (λ t, t_id t ≠ newId))]
  | None =>
      match r_data reply with
      | Some data =>
          let returnedId := String_ (rt_id data) in
          (if decide (returnedId ≠ newId) then
             [CPendingTaskAdds (λ p, {[returnedId]} ∪ p);
              CSetTasks (fmap (λ t, if decide (t_id t = newId)
                                    then confirmedTask t data returnedId
                                    else t));
              CPendingTaskAdds (λ p, p ∖ {[newId]})]
           else [])
          ++ [CSetTimeout (ReleaseTask newId returnedId) 5000]
      | None => []
      end
  end.

Definition handleAddTask (now : Z) (task : TaskDraft) (rnd : Z) (iso : string)
    (reply : Reply RawTask) : list Call :=
  let newId := taskLocalId now rnd in
  let newTask := newTask newId task iso in
  [CPendingTaskAdds (λ p, {[newId]} ∪ p);
   CSetTasks (λ prev, prev ++ [newTask]);
   CRequest (InsertTask (taskPayload newTask))]
  ++ addTaskSettle newId reply.

Definition handleDeleteTask (taskId : string) : list Call :=
  [CSetTasks (filter (λ t, t_id t ≠ taskId)); CRequest (DeleteTask taskId)].

Definition handleUpdateTask (taskId : string) (updatedFields : PartialTask)
  : list Call :=
  [CSetTasks (fmap (λ t, if decide (t_id t = taskId)
                         then applyTaskUpdate updatedFields t else t));
   CRequest (UpdateTask taskId updatedFields)].

(** A call sequence run with every updater applied at its call: this is
    how the handlers of the first part run. *)
Definition call (c : Call) : M unit :=
  match c with
  | CSetCustomers updater => setCustomers updater
  | CSetTasks updater => setTasks updater
  | CRequest r => remote r
  | CPendingAdds f => modifyPendingAdds f
  | CPendingTaskAdds f => modifyPendingTaskAdds f
  | CConsoleError msg => console_error msg
  | CAlert msg => alert msg
  | CSetTimeout cb ms => setTimeout cb ms
  end.

Fixpoint calls (cs : list Call) : M unit :=
  match cs with
  | [] => mret tt
  | c :: rest => call c;; calls rest
  end.

(** A request as it is issued: the collections of the last render, and
    the collections the next render will show (the queued updaters applied
    to them). *)
Record Issued := mkIssued {
  i_request : Request;
  i_shownCustomers : list Customer;
  i_shownTasks : list Task;
  i_nextCustomers : list Customer;
  i_nextTasks : list Task
}.

(** The two collections as React holds them: the value of the last render
    and the updaters queued since. *)
Record State := mkState {
  shownCustomers : list Customer;
  shownTasks : list Task;
  queuedCustomers : list (list Customer → list Customer);
  queuedTasks : list (list Task → list Task);
  issued : list Issued
}.

Definition applyQueue {A : Type} (queue : list (A → A)) (x : A) : A :=
  foldl (λ x updater, updater x) x queue.

Definition nextCustomers (s : State) : list Customer :=
  applyQueue (queuedCustomers s) (shownCustomers s).

Definition nextTasks (s : State) : list Task :=
  applyQueue (queuedTasks s) (shownTasks s).

(** One step of a run: a call of the handler, or a render of the
    component. *)
Inductive Step :=
| Run (c : Call)
| Render.

Definition step (s : State) (e : Step) : State :=
  match e with
  | Run (CSetCustomers updater) =>
      mkState (shownCustomers s) (shownTasks s)
        (queuedCustomers s ++ [updater]) (queuedTasks s) (issued s)
  | Run (CSetTasks updater) =>
      mkState (shownCustomers s) (shownTasks s)
        (queuedCustomers s) (queuedTasks s ++ [updater]) (issued s)
  | Run (CRequest r) =>
      mkState (shownCustomers s) (shownTasks s)
        (queuedCustomers s) (queuedTasks s)
        (issued s ++ [mkIssued r (shownCustomers s) (shownTasks s)
                        (nextCustomers s) (nextTasks s)])
  | Run _ => s
  | Render => mkState (nextCustomers s) (nextTasks s) [] [] (issued s)
  end.

Definition run (steps : list Step) (s : State) : State := foldl step s steps.

(** The calls of a run, in order: a run of a handler is its calls with
    renders in between, wherever React places them. *)
Definition callsOf (steps : list Step) : list Call :=
  omap (λ e, match e with Run c => Some c | Render => None end) steps.

(** A request with the collections the next render shows. *)
Definition planned (i : Issued) : Request * list Customer * list Task :=
  (i_request i, i_nextCustomers i, i_nextTasks i).

(** The requests of a call sequence, each with the collections that result
    from the updaters called before it. *)
Fixpoint requestsWith (cs : list Call) (c : list Customer) (t : list Task)
  : list (Request * list Customer * list Task) :=
  match cs with
  | [] => []
  | CSetCustomers updater :: rest => requestsWith rest (updater c) t
  | CSetTasks updater :: rest => requestsWith rest c (updater t)
  | CRequest r :: rest => (r, c, t) :: requestsWith rest c t
  | _ :: rest => requestsWith rest c t
  end.

(** From [s] to [s'] the requests [reqs] were issued, no other, each at a
    time when the next render was due to show [c] and [t]. *)
Definition issuedWith (s s' : State) (reqs : list Request)
    (c : list Customer) (t : list Task) : Prop :=
  planned <$> issued s' = (planned <$> issued s) ++ ((λ r, (r, c, t)) <$> reqs).

End React.

(** * Properties *)

(** ** Refresh merge *)

Lemma clearIfConfirmed_difference (ids : list string) (p : gset string) :
  clearIfConfirmed ids p = p ∖ list_to_set ids.
Proof.
  unfold clearIfConfirmed. revert p.
  induction ids as [|f ids IH]; intros p; simpl.
  - set_solver.
  - rewrite IH. destruct (decide (f ∈ p)); set_solver.
Qed.

Lemma Exists_id_elem_of {A} (key : A → string) (x : string) (l : list A) :
  Exists (λ f, key f = x) l ↔ x ∈ key <$> l.
Proof.
  rewrite Exists_exists, list_elem_of_fmap. naive_solver.
Qed.

Lemma refreshCustomers_eq (p : gset string) prev customersData :
  let fetched := normalize <$> default [] customersData in
  let p' := p ∖ list_to_set (c_id <$> fetched) in
  refreshCustomers p prev customersData =
    (p', fetched ++ filter (λ c, c_id c ∈ p' ∧ c_id c ∉ c_id <$> fetched) prev).
Proof.
  intros fetched p'. unfold refreshCustomers. fold fetched.
  rewrite clearIfConfirmed_difference. fold p'. f_equal. f_equal.
  apply list_filter_iff. intros c. by rewrite Exists_id_elem_of.
Qed.

Lemma refreshTasks_eq (p : gset string) prev tasksData :
  let fetched := normalizeTask <$> default [] tasksData in
  let p' := p ∖ list_to_set (t_id <$> fetched) in
  refreshTasks p prev tasksData =
    (p', fetched ++ filter (λ t, t_id t ∈ p' ∧ t_id t ∉ t_id <$> fetched) prev).
Proof.
  intros fetched p'. unfold refreshTasks. fold fetched.
  rewrite clearIfConfirmed_difference. fold p'. f_equal. f_equal.
  apply list_filter_iff. intros c. by rewrite Exists_id_elem_of.
Qed.

(** What [fetchAllData] leaves in the world. *)
Lemma fetchAllData_pendingAdds w cd cols td ed ttd :
  pendingAdds (exec (fetchAllData cd cols td ed ttd) w)
    = pendingAdds w ∖ list_to_set (c_id <$> (normalize <$> default [] cd)).
Proof.
  change (pendingAdds (exec (fetchAllData cd cols td ed ttd) w))
    with (refreshCustomers (pendingAdds w) (customers w) cd).1.
  by rewrite refreshCustomers_eq.
Qed.

Lemma fetchAllData_customers w cd cols td ed ttd :
  let fetched := normalize <$> default [] cd in
  customers (exec (fetchAllData cd cols td ed ttd) w)
    = fetched ++
      filter (λ c, c_id c ∈ pendingAdds w ∖ list_to_set (c_id <$> fetched)
                   ∧ c_id c ∉ c_id <$> fetched) (customers w).
Proof.
  intros fetched.
  change (customers (exec (fetchAllData cd cols td ed ttd) w))
    with (refreshCustomers (pendingAdds w) (customers w) cd).2.
  by rewrite refreshCustomers_eq.
Qed.

Lemma fetchAllData_pendingTaskAdds w cd cols td ed ttd :
  pendingTaskAdds (exec (fetchAllData cd cols td ed ttd) w)
    = pendingTaskAdds w ∖ list_to_set (t_id <$> (normalizeTask <$> default [] td)).
Proof.
  change (pendingTaskAdds (exec (fetchAllData cd cols td ed ttd) w))
    with (refreshTasks (pendingTaskAdds w) (tasks w) td).1.
  by rewrite refreshTasks_eq.
Qed.

Lemma fetchAllData_tasks w cd cols td ed ttd :
  let fetched := normalizeTask <$> default [] td in
  tasks (exec (fetchAllData cd cols td ed ttd) w)
    = fetched ++
      filter (λ t, t_id t ∈ pendingTaskAdds w ∖ list_to_set (t_id <$> fetched)
                   ∧ t_id t ∉ t_id <$> fetched) (tasks w).
Proof.
  intros fetched.
  change (tasks (exec (fetchAllData cd cols td ed ttd) w))
    with (refreshTasks (pendingTaskAdds w) (tasks w) td).2.
  by rewrite refreshTasks_eq.
Qed.

(** C1. A full refresh first drops from each pending set the identifiers
    that occur in the (id-normalized) snapshot; the new collection is the
    snapshot followed by exactly the previous records whose identifier is
    still pending and does not occur in the snapshot.  In particular a
    previous record that is pending and absent from the snapshot is kept as
    it was.  Customers and tasks alike. *)
Theorem refresh_merge_retains_pending (w : World)
    (customersData : option (list RawCustomer)) (columnsData : option (list Column))
    (tasksData : option (list RawTask))
    (employeesData templateTasksData : option (list RawEntity)) :
  let w' := exec (fetchAllData customersData columnsData tasksData
                    employeesData templateTasksData) w in
  let fetchedC := normalize <$> default [] customersData in
  let fetchedT := normalizeTask <$> default [] tasksData in
  (pendingAdds w' = pendingAdds w ∖ list_to_set (c_id <$> fetchedC)
   ∧ customers w' =
       fetchedC ++ filter (λ c, c_id c ∈ pendingAdds w' ∧ c_id c ∉ c_id <$> fetchedC)
                          (customers w)
   ∧ (∀ c, c ∈ customers w → c_id c ∈ pendingAdds w →
           c_id c ∉ c_id <$> fetchedC → c ∈ customers w'))
  ∧ (pendingTaskAdds w' = pendingTaskAdds w ∖ list_to_set (t_id <$> fetchedT)
     ∧ tasks w' =
         fetchedT ++ filter (λ t, t_id t ∈ pendingTaskAdds w' ∧ t_id t ∉ t_id <$> fetchedT)
                            (tasks w)
     ∧ (∀ t, t ∈ tasks w → t_id t ∈ pendingTaskAdds w →
             t_id t ∉ t_id <$> fetchedT → t ∈ tasks w')).
Proof.
  intros w' fetchedC fetchedT. subst w'.
  rewrite fetchAllData_pendingAdds, fetchAllData_customers,
    fetchAllData_pendingTaskAdds, fetchAllData_tasks.
  fold fetchedC fetchedT.
  split; (split; [done|]); (split; [done|]).
  - intros c Hin Hpend Hfresh.
    apply elem_of_app. right. apply list_elem_of_filter.
    split; [|done]. split; [|done].
    apply elem_of_difference. split; [done|].
    by rewrite elem_of_list_to_set.
  - intros t Hin Hpend Hfresh.
    apply elem_of_app. right. apply list_elem_of_filter.
    split; [|done]. split; [|done].
    apply elem_of_difference. split; [done|].
    by rewrite elem_of_list_to_set.
Qed.

Lemma refresh_merge_retains_pending_witness :
  let c := mkCustomer "c_1000_5" ∅ ∅ in
  let w := mkWorld [mkCustomer "1" ∅ ∅; c] [] [] [] [] {["c_1000_5"]} ∅ 0 [] [] in
  c ∈ customers (exec (fetchAllData (Some [mkRawCustomer (IdNum 1) ∅ ∅])
                         None None None None) w).
Proof.
  intros c w.
  apply (refresh_merge_retains_pending w (Some [mkRawCustomer (IdNum 1) ∅ ∅])
           None None None None).
  - apply list_elem_of_In. right. left. reflexivity.
  - vm_compute. reflexivity.
  - intros H. apply list_elem_of_In in H. vm_compute in H.
    destruct H as [H|[]]. discriminate H.
Defined.

(** ** Create: failure of the remote insert *)

Lemma filter_ne_fresh {A} (key : A → string) (x : string) (l : list A) :
  x ∉ key <$> l → filter (λ c, key c ≠ x) l = l.
Proof.
  induction l as [|a l IH]; [done|].
  rewrite fmap_cons, not_elem_of_cons. intros [Hne Hl].
  rewrite filter_cons_True by done. by rewrite IH.
Qed.

Lemma filter_ne_snoc {A} (key : A → string) (x : string) (l : list A) (a : A) :
  key a = x → filter (λ c, key c ≠ x) (l ++ [a]) = filter (λ c, key c ≠ x) l.
Proof.
  intros Ha. rewrite filter_app, filter_cons_False, filter_nil by naive_solver.
  by rewrite app_nil_r.
Qed.

Lemma filter_ne_absent {A} (key : A → string) (x : string) (l : list A) :
  x ∉ key <$> filter (λ c, key c ≠ x) l.
Proof.
  rewrite list_elem_of_fmap. intros (c & -> & Hc).
  apply list_elem_of_filter in Hc. naive_solver.
Qed.

Lemma handleAddCustomer_failure w customerData rnd iso data message :
  let newId := customerLocalId (clock w) rnd in
  let w' := exec (handleAddCustomer customerData rnd iso
                    (mkReply data (Some message))) w in
  customers w' = filter (λ c, c_id c ≠ newId) (customers w)
  ∧ pendingAdds w' = ({[newId]} ∪ pendingAdds w) ∖ {[newId]}
  ∧ trace w' = trace w ++
      [StoreCustomers;
       Remote (InsertCustomer
                 (customerPayload (newCustomer newId customerData (columns w) iso)));
       ConsoleError "Error adding customer:";
       Alert ("登録に失敗しました。" +:+ newline +:+ "エラー: " +:+ message);
       StoreCustomers].
Proof.
  intros newId w'. split_and!.
  - change (customers w') with
      (filter (λ c, c_id c ≠ newId)
         (customers w ++ [newCustomer newId customerData (columns w) iso])).
    by apply filter_ne_snoc.
  - done.
  - subst w'. unfold exec. simpl. by rewrite <- !app_assoc.
Qed.

Lemma handleAddTask_failure w task rnd iso data message :
  let newId := taskLocalId (clock w) rnd in
  let w' := exec (handleAddTask task rnd iso (mkReply data (Some message))) w in
  tasks w' = filter (λ t, t_id t ≠ newId) (tasks w)
  ∧ pendingTaskAdds w' = ({[newId]} ∪ pendingTaskAdds w) ∖ {[newId]}
  ∧ trace w' = trace w ++
      [StoreTasks;
       Remote (InsertTask (taskPayload (newTask newId task iso)));
       ConsoleError "Error adding task:";
       Alert ("タスク登録失敗: " +:+ message);
       StoreTasks].
Proof.
  intros newId w'. split_and!.
  - change (tasks w') with
      (filter (λ t, t_id t ≠ newId) (tasks w ++ [newTask newId task iso])).
    by apply filter_ne_snoc.
  - done.
  - subst w'. unfold exec. simpl. by rewrite <- !app_assoc.
Qed.

(** C2, as amended.  When the remote insert of a create (customer or task)
    fails, the store afterwards holds no record under the locally generated
    identifier: it is the pre-create collection without the records that
    carried that identifier, hence the pre-create collection itself whenever
    the generated identifier was not already in use.  The identifier is no
    longer pending, one alert carrying the server's message is raised, and
    the insert is the only request sent. *)
Theorem create_failure_rolls_back (w : World) (customerData : CustomerDraft)
    (task : TaskDraft) (rnd : Z) (iso message : string)
    (dataC : option RawCustomer) (dataT : option RawTask) :
  let cId := customerLocalId (clock w) rnd in
  let tId := taskLocalId (clock w) rnd in
  let wc := exec (handleAddCustomer customerData rnd iso
                    (mkReply dataC (Some message))) w in
  let wt := exec (handleAddTask task rnd iso (mkReply dataT (Some message))) w in
  (customers wc = filter (λ c, c_id c ≠ cId) (customers w)
   ∧ (cId ∉ c_id <$> customers wc)
   ∧ (cId ∉ c_id <$> customers w → customers wc = customers w)
   ∧ (cId ∉ pendingAdds wc)
   ∧ alerts (trace wc) = alerts (trace w) ++
       ["登録に失敗しました。" +:+ newline +:+ "エラー: " +:+ message]
   ∧ requests (trace wc) = requests (trace w) ++
       [InsertCustomer (customerPayload (newCustomer cId customerData (columns w) iso))])
  ∧ (tasks wt = filter (λ t, t_id t ≠ tId) (tasks w)
     ∧ (tId ∉ t_id <$> tasks wt)
     ∧ (tId ∉ t_id <$> tasks w → tasks wt = tasks w)
     ∧ (tId ∉ pendingTaskAdds wt)
     ∧ alerts (trace wt) = alerts (trace w) ++ ["タスク登録失敗: " +:+ message]
     ∧ requests (trace wt) = requests (trace w) ++
         [InsertTask (taskPayload (newTask tId task iso))]).
Proof.
  intros cId tId wc wt.
  destruct (handleAddCustomer_failure w customerData rnd iso dataC message)
    as (Hc & Hp & Htr).
  destruct (handleAddTask_failure w task rnd iso dataT message)
    as (Ht & Hq & Htr').
  fold cId wc in Hc, Hp, Htr. fold tId wt in Ht, Hq, Htr'.
  split; split_and!.
  - done.
  - rewrite Hc. apply filter_ne_absent.
  - intros Hfresh. rewrite Hc. by apply filter_ne_fresh.
  - rewrite Hp. set_solver.
  - rewrite Htr. unfold alerts. by rewrite omap_app.
  - rewrite Htr. unfold requests. by rewrite omap_app.
  - done.
  - rewrite Ht. apply filter_ne_absent.
  - intros Hfresh. rewrite Ht. by apply filter_ne_fresh.
  - rewrite Hq. set_solver.
  - rewrite Htr'. unfold alerts. by rewrite omap_app.
  - rewrite Htr'. unfold requests. by rewrite omap_app.
Qed.

Lemma create_failure_rolls_back_witness :
  let w := mkWorld [mkCustomer "41" ∅ ∅] [] [] [] [] ∅ ∅ 1000 [] [] in
  customers (exec (handleAddCustomer (mkCustomerDraft ∅ ∅) 5 "2026-01-01T00:00:00.000Z"
                     (mkReply None (Some "network error"))) w)
  = customers w.
Proof.
  intros w.
  apply (create_failure_rolls_back w (mkCustomerDraft ∅ ∅) (mkTaskDraft "5" ∅) 5
           "2026-01-01T00:00:00.000Z" "network error" None None).
  intros H. apply list_elem_of_In in H. vm_compute in H.
  destruct H as [H|[]]. discriminate H.
Defined.

(** C2 as first stated fails when the generated identifier is already in
    use: the rollback filters by identifier and takes the older record with
    it, so the store does not return to the pre-create collection. *)
Lemma create_failure_collision_counterexample :
  let w := mkWorld [mkCustomer "c_1000_5" ∅ ∅] [] [] [] [] ∅ ∅ 1000 [] [] in
  customers (exec (handleAddCustomer (mkCustomerDraft ∅ ∅) 5 "2026-01-01T00:00:00.000Z"
                     (mkReply None (Some "network error"))) w) = []
  ∧ customers (exec (handleAddCustomer (mkCustomerDraft ∅ ∅) 5 "2026-01-01T00:00:00.000Z"
                       (mkReply None (Some "network error"))) w) ≠ customers w.
Proof. split; [by vm_compute|]. vm_compute. discriminate. Qed.

(** ** Create: success with a server-assigned identifier *)

Section replace_by_id.
Context {A : Type} (key : A → string).

(** [l.map(c => c.id === x ? r : c)] *)
Lemma replace_fresh (x : string) (r : A → A) (l : list A) :
  x ∉ key <$> l → (λ c, if decide (key c = x) then r c else c) <$> l = l.
Proof.
  induction l as [|a l IH]; [done|].
  rewrite !fmap_cons, not_elem_of_cons. intros [Hne Hl].
  rewrite IH by done. by rewrite decide_False.
Qed.


End replace_by_id.

(** The world at the [await] of a create. *)
Lemma addCustomerOptimistic_run w customerData rnd iso :
  let newId := customerLocalId (clock w) rnd in
  let c := newCustomer newId customerData (columns w) iso in
  addCustomerOptimistic customerData rnd iso w =
    (newId,
     mkWorld (customers w ++ [c]) (columns w) (tasks w) (employees w)
       (templateTasks w) ({[newId]} ∪ pendingAdds w) (pendingTaskAdds w)
       (clock w) (timers w)
       ((trace w ++ [StoreCustomers]) ++ [Remote (InsertCustomer (customerPayload c))])).
Proof. reflexivity. Qed.


Lemma handleAddCustomer_split w customerData rnd iso reply :
  exec (handleAddCustomer customerData rnd iso reply) w =
  exec (addCustomerSettle (customerLocalId (clock w) rnd) reply)
       (exec (addCustomerOptimistic customerData rnd iso) w).
Proof. reflexivity. Qed.

Lemma handleAddTask_split w task rnd iso reply :
  exec (handleAddTask task rnd iso reply) w =
  exec (addTaskSettle (taskLocalId (clock w) rnd) reply)
       (exec (addTaskOptimistic task rnd iso) w).
Proof. reflexivity. Qed.

(** The reply handler of a create on any world, when the server's id
    differs from the local one. *)
Lemma addCustomerSettle_swap w newId data :
  let returnedId := String_ (rc_id data) in
  returnedId ≠ newId →
  exec (addCustomerSettle newId (mkReply (Some data) None)) w =
    mkWorld ((λ c, if decide (c_id c = newId)
                   then confirmedCustomer data returnedId else c) <$> customers w)
      (columns w) (tasks w) (employees w) (templateTasks w)
      (({[returnedId]} ∪ pendingAdds w) ∖ {[newId]}) (pendingTaskAdds w)
      (clock w) (timers w ++ [(clock w + 5000, ReleaseCustomer newId returnedId)])
      ((trace w ++ [StoreCustomers]) ++ [SetTimeout 5000]).
Proof.
  intros returnedId Hne. unfold addCustomerSettle. cbn [r_error r_data].
  fold returnedId. by destruct (decide (returnedId ≠ newId)).
Qed.


(** The reply handler of a create when the server kept the local id. *)
Lemma addCustomerSettle_same w newId data :
  String_ (rc_id data) = newId →
  exec (addCustomerSettle newId (mkReply (Some data) None)) w =
    mkWorld (customers w) (columns w) (tasks w) (employees w) (templateTasks w)
      (pendingAdds w) (pendingTaskAdds w)
      (clock w) (timers w ++ [(clock w + 5000, ReleaseCustomer newId newId)])
      (trace w ++ [SetTimeout 5000]).
Proof.
  intros Heq. unfold addCustomerSettle. cbn [r_error r_data].
  rewrite Heq. by destruct (decide (newId ≠ newId)).
Qed.

Lemma addTaskSettle_same w newId data :
  String_ (rt_id data) = newId →
  exec (addTaskSettle newId (mkReply (Some data) None)) w =
    mkWorld (customers w) (columns w) (tasks w) (employees w) (templateTasks w)
      (pendingAdds w) (pendingTaskAdds w)
      (clock w) (timers w ++ [(clock w + 5000, ReleaseTask newId newId)])
      (trace w ++ [SetTimeout 5000]).
Proof.
  intros Heq. unfold addTaskSettle. cbn [r_error r_data].
  rewrite Heq. by destruct (decide (newId ≠ newId)).
Qed.

Lemma handleAddCustomer_swapped w customerData rnd iso data :
  let newId := customerLocalId (clock w) rnd in
  let returnedId := String_ (rc_id data) in
  let w' := exec (handleAddCustomer customerData rnd iso
                    (mkReply (Some data) None)) w in
  returnedId ≠ newId →
  customers w' =
    ((λ c, if decide (c_id c = newId) then confirmedCustomer data returnedId else c)
       <$> customers w) ++ [normalize data]
  ∧ pendingAdds w' = ({[returnedId]} ∪ ({[newId]} ∪ pendingAdds w)) ∖ {[newId]}
  ∧ timers w' = timers w ++ [(clock w + 5000, ReleaseCustomer newId returnedId)]
  ∧ clock w' = clock w.
Proof.
  intros newId returnedId w' Hne. subst w'.
  rewrite handleAddCustomer_split. fold newId.
  rewrite (addCustomerSettle_swap _ newId data Hne). cbn.
  split_and!; try done.
  change (customers (exec (addCustomerOptimistic customerData rnd iso) w))
    with (customers w ++ [newCustomer newId customerData (columns w) iso]).
  rewrite fmap_app. cbn. by rewrite decide_True.
Qed.


Section swap_by_id.
Context {A : Type} (key : A → string).

End swap_by_id.






(** ** Change-feed inserts *)

(** The customer handler ignores an insert whose id is already stored and
    appends any other. *)
Lemma customer_insert_deduplicates (new : RawCustomer) (c : list Customer) :
  (String_ (rc_id new) ∈ c_id <$> c → customerChange (INSERT new) c = c)
  ∧ (String_ (rc_id new) ∉ c_id <$> c →
     customerChange (INSERT new) c = c ++ [normalize new]).
Proof.
  unfold customerChange. split; intros H.
  - rewrite decide_True; [done|]. by apply Exists_id_elem_of.
  - rewrite decide_False; [done|]. by rewrite Exists_id_elem_of.
Qed.

(** The task handler appends every insert. *)
Lemma task_insert_appends (new : RawTask) (t : list Task) :
  taskChange (INSERT new) t = t ++ [normalizeTask new].
Proof. reflexivity. Qed.

(** C4 at its failing input.  A task is created, the server answers with
    id 7 and the record is swapped in; the change feed then echoes the
    insert of task 7.  The task handler appends the echo although a record
    with id "7" is stored: the store holds two of them.  The same run on
    customers leaves one record. *)
Theorem task_insert_echo_duplicates :
  let w0 := mkWorld [] [] [] [] [] ∅ ∅ 1000 [] [] in
  let row := mkRawTask (IdNum 7) (IdNum 5) {["title" := VStr "Survey"]} in
  let w1 := exec (handleAddTask (mkTaskDraft "5" {["title" := VStr "Survey"]}) 5
                    "2026-01-01T00:00:00.000Z" (mkReply (Some row) None)) w0 in
  let w2 := exec (handleTaskChange (INSERT row)) w1 in
  let crow := mkRawCustomer (IdNum 7) {["name" := VStr "Yamada"]} ∅ in
  let v1 := exec (handleAddCustomer (mkCustomerDraft {["name" := VStr "Yamada"]} ∅) 5
                    "2026-01-01T00:00:00.000Z" (mkReply (Some crow) None)) w0 in
  let v2 := exec (handleCustomerChange (INSERT crow)) v1 in
  t_id <$> tasks w1 = ["7"]
  ∧ t_id <$> tasks w2 = ["7"; "7"]
  ∧ tasks w2 ≠ tasks w1
  ∧ customers v2 = customers v1.
Proof.
  split_and!; by vm_compute.
Qed.

(** ** Customer delete *)

(** [handleDeleteCustomer] never touches the task collection. *)
Lemma handleDeleteCustomer_run (w : World) (customerId : string) :
  let w' := exec (handleDeleteCustomer customerId) w in
  customers w' = filter (λ c, c_id c ≠ customerId) (customers w)
  ∧ tasks w' = tasks w
  ∧ trace w' = trace w ++
      [StoreCustomers; Remote (DeleteTasksOfCustomer customerId);
       Remote (DeleteCustomer customerId)].
Proof.
  intros w'. split_and!; try done.
  subst w'. unfold exec. simpl. by rewrite <- !app_assoc.
Qed.

(** C5 at its failing input.  Deleting customer "5" removes the customer
    at once and sends the delete of its tasks before the delete of the
    customer, but the task of customer "5" stays in the task collection. *)
Theorem delete_customer_keeps_local_tasks :
  let t1 := mkTask "t1" "5" ∅ in
  let t2 := mkTask "t2" "6" ∅ in
  let w := mkWorld [mkCustomer "5" ∅ ∅; mkCustomer "6" ∅ ∅] [] [t1; t2]
             [] [] ∅ ∅ 0 [] [] in
  let w' := exec (handleDeleteCustomer "5") w in
  customers w' = [mkCustomer "6" ∅ ∅]
  ∧ tasks w' = [t1; t2]
  ∧ t1 ∈ tasks w'
  ∧ requests (trace w') = [DeleteTasksOfCustomer "5"; DeleteCustomer "5"].
Proof.
  split_and!; try by vm_compute.
  apply list_elem_of_In. left. reflexivity.
Qed.

(** ** Idempotence of the refresh merge and of the change-feed handlers *)

Lemma filter_none {A} (P : A → Prop) `{!∀ x, Decision (P x)} (l : list A) :
  (∀ x, x ∈ l → ¬ P x) → filter P l = [].
Proof.
  induction l as [|a l IH]; [done|]. intros Hall.
  rewrite filter_cons_False by (apply Hall; left).
  apply IH. intros x Hx. apply Hall. by right.
Qed.

Section by_id.
Context {A : Type} (key : A → string).

(** [l.map(item => item.id === x ? r : item)] twice is once. *)
Lemma update_by_id_idem (x : string) (r : A) (l : list A) :
  key r = x →
  let g := λ item, if decide (key item = x) then r else item in
  g <$> (g <$> l) = g <$> l.
Proof.
  intros Hr g. rewrite <- list_fmap_compose. apply list_fmap_ext.
  intros i item _. unfold g. simpl.
  destruct (decide (key item = x)) as [|Hne].
  - by rewrite decide_True.
  - by rewrite decide_False.
Qed.

(** [l.filter(item => item.id !== x)] twice is once. *)
Lemma delete_by_id_idem (x : string) (l : list A) :
  filter (λ item, key item ≠ x) (filter (λ item, key item ≠ x) l)
  = filter (λ item, key item ≠ x) l.
Proof.
  rewrite list_filter_filter. apply list_filter_iff. naive_solver.
Qed.

(** Merging the same snapshot into the result of a merge changes nothing. *)
Lemma merge_idem (p : gset string) (fetched prev : list A) :
  let p' := p ∖ list_to_set (key <$> fetched) in
  let kept := λ c, key c ∈ p' ∧ key c ∉ key <$> fetched in
  p' ∖ list_to_set (key <$> fetched) = p'
  ∧ filter kept (fetched ++ filter kept prev) = filter kept prev.
Proof.
  intros p' kept. split; [set_solver|].
  rewrite filter_app.
  replace (filter kept fetched) with (@nil A).
  - simpl. rewrite list_filter_filter. apply list_filter_iff. naive_solver.
  - symmetry. apply filter_none. intros c Hc [_ Hout].
    apply Hout. by apply list_elem_of_fmap_2.
Qed.
End by_id.

Lemma customerChange_idem (payload : Change RawCustomer RawId) (c : list Customer) :
  customerChange payload (customerChange payload c) = customerChange payload c.
Proof.
  destruct payload as [new|new|old_id]; simpl.
  - destruct (decide (Exists (λ existing, c_id existing = String_ (rc_id new)) c))
      as [Hin|Hout].
    + by rewrite decide_True.
    + rewrite decide_True; [done|].
      apply Exists_app. right. by apply Exists_cons_hd.
  - by apply (update_by_id_idem c_id).
  - apply (delete_by_id_idem c_id).
Qed.

Lemma taskChange_idem (payload : Change RawTask RawId) (t : list Task) :
  isInsert payload = false →
  taskChange payload (taskChange payload t) = taskChange payload t.
Proof.
  destruct payload as [new|new|old_id]; simpl; intros Hk; [done| |].
  - by apply (update_by_id_idem t_id).
  - apply (delete_by_id_idem t_id).
Qed.

Lemma columnChange_idem (payload : Change Column string) (c : list Column) :
  isInsert payload = false →
  columnChange payload (columnChange payload c) = columnChange payload c.
Proof.
  destruct payload as [new|new|old_id]; simpl; intros Hk; [done| |].
  - by apply (update_by_id_idem col_id).
  - apply (delete_by_id_idem col_id).
Qed.

Lemma entityChange_idem (payload : Change RawEntity RawId) (e : list Entity) :
  isInsert payload = false →
  entityChange payload (entityChange payload e) = entityChange payload e.
Proof.
  destruct payload as [new|new|old_id]; simpl; intros Hk; [done| |].
  - by apply (update_by_id_idem e_id).
  - apply (delete_by_id_idem e_id).
Qed.

Lemma fetchAllData_idem w cd cols td ed ttd :
  let refresh := fetchAllData cd cols td ed ttd in
  store (exec refresh (exec refresh w)) = store (exec refresh w)
  ∧ pendingAdds (exec refresh (exec refresh w)) = pendingAdds (exec refresh w)
  ∧ pendingTaskAdds (exec refresh (exec refresh w)) = pendingTaskAdds (exec refresh w).
Proof.
  intros refresh. subst refresh.
  assert (customers (exec (fetchAllData cd cols td ed ttd)
                       (exec (fetchAllData cd cols td ed ttd) w))
          = customers (exec (fetchAllData cd cols td ed ttd) w)) as Hc.
  { rewrite (fetchAllData_customers (exec _ w)), fetchAllData_pendingAdds.
    rewrite (fetchAllData_customers w).
    destruct (merge_idem c_id (pendingAdds w) (normalize <$> default [] cd)
                (customers w)) as [Hp Hl].
    rewrite Hp. f_equal. exact Hl. }
  assert (tasks (exec (fetchAllData cd cols td ed ttd)
                   (exec (fetchAllData cd cols td ed ttd) w))
          = tasks (exec (fetchAllData cd cols td ed ttd) w)) as Ht.
  { rewrite (fetchAllData_tasks (exec _ w)), fetchAllData_pendingTaskAdds.
    rewrite (fetchAllData_tasks w).
    destruct (merge_idem t_id (pendingTaskAdds w) (normalizeTask <$> default [] td)
                (tasks w)) as [Hp Hl].
    rewrite Hp. f_equal. exact Hl. }
  split_and!.
  - unfold store. rewrite Hc, Ht. done.
  - rewrite (fetchAllData_pendingAdds (exec _ w)), fetchAllData_pendingAdds.
    set_solver.
  - rewrite (fetchAllData_pendingTaskAdds (exec _ w)), fetchAllData_pendingTaskAdds.
    set_solver.
Qed.

(** X26.  Applying the refresh merge twice with the same snapshot leaves
    the same store (and the same pending sets) as applying it once; so does
    applying twice the same customer change-feed event (insert, update or
    delete), and the same update or delete event of the task, column,
    employee and template-task handlers. *)
Theorem refresh_and_changes_idempotent :
  (∀ w cd cols td ed ttd,
     let refresh := fetchAllData cd cols td ed ttd in
     store (exec refresh (exec refresh w)) = store (exec refresh w)
     ∧ pendingAdds (exec refresh (exec refresh w)) = pendingAdds (exec refresh w)
     ∧ pendingTaskAdds (exec refresh (exec refresh w))
       = pendingTaskAdds (exec refresh w))
  ∧ (∀ w payload,
       store (exec (handleCustomerChange payload)
                (exec (handleCustomerChange payload) w))
       = store (exec (handleCustomerChange payload) w))
  ∧ (∀ w payload, isInsert payload = false →
       store (exec (handleTaskChange payload) (exec (handleTaskChange payload) w))
       = store (exec (handleTaskChange payload) w))
  ∧ (∀ w payload, isInsert payload = false →
       store (exec (handleColumnChange payload) (exec (handleColumnChange payload) w))
       = store (exec (handleColumnChange payload) w))
  ∧ (∀ w payload, isInsert payload = false →
       store (exec (handleEmployeeChange payload)
                (exec (handleEmployeeChange payload) w))
       = store (exec (handleEmployeeChange payload) w))
  ∧ (∀ w payload, isInsert payload = false →
       store (exec (handleTemplateTaskChange payload)
                (exec (handleTemplateTaskChange payload) w))
       = store (exec (handleTemplateTaskChange payload) w)).
Proof.
  split_and!.
  - apply fetchAllData_idem.
  - intros w payload.
    change (store (exec (handleCustomerChange payload)
                     (exec (handleCustomerChange payload) w)))
      with (customerChange payload (customerChange payload (customers w)),
            columns w, tasks w, employees w, templateTasks w).
    by rewrite customerChange_idem.
  - intros w payload Hk.
    change (store (exec (handleTaskChange payload)
                     (exec (handleTaskChange payload) w)))
      with (customers w, columns w,
            taskChange payload (taskChange payload (tasks w)),
            employees w, templateTasks w).
    by rewrite taskChange_idem.
  - intros w payload Hk.
    change (store (exec (handleColumnChange payload)
                     (exec (handleColumnChange payload) w)))
      with (customers w, columnChange payload (columnChange payload (columns w)),
            tasks w, employees w, templateTasks w).
    by rewrite columnChange_idem.
  - intros w payload Hk.
    change (store (exec (handleEmployeeChange payload)
                     (exec (handleEmployeeChange payload) w)))
      with (customers w, columns w, tasks w,
            entityChange payload (entityChange payload (employees w)),
            templateTasks w).
    by rewrite entityChange_idem.
  - intros w payload Hk.
    change (store (exec (handleTemplateTaskChange payload)
                     (exec (handleTemplateTaskChange payload) w)))
      with (customers w, columns w, tasks w, employees w,
            entityChange payload (entityChange payload (templateTasks w))).
    by rewrite entityChange_idem.
Qed.

Lemma refresh_and_changes_idempotent_witness :
  let w := mkWorld [] [] [mkTask "7" "5" ∅; mkTask "8" "5" ∅] [] [] ∅ ∅ 0 [] [] in
  let payload : Change RawTask RawId := DELETE (IdNum 7) in
  store (exec (handleTaskChange payload) (exec (handleTaskChange payload) w))
  = store (exec (handleTaskChange payload) w).
Proof.
  intros w payload.
  apply (proj1 (proj2 (proj2 refresh_and_changes_idempotent)) w payload).
  reflexivity.
Defined.

(** C7 at its failing input.  On an empty store the insert event of task 7
    leaves one record and the same event applied again leaves two: the task
    handler appends every insert.  The column, employee and template-task
    handlers append in the same way, so the echo of the application's own
    optimistic column add leaves the column twice.  The customer handler,
    given its insert event twice, leaves one record. *)
Theorem insert_event_twice_duplicates :
  let w := mkWorld [] [] [] [] [] ∅ ∅ 0 [] [] in
  let twice (h : M unit) := exec h (exec h w) in
  let task : Change RawTask RawId := INSERT (mkRawTask (IdNum 7) (IdNum 5) ∅) in
  let col := mkColumn "col_1000" "Memo" CText 0 (Some []) true in
  let row : Change RawEntity RawId := INSERT (mkRawEntity (IdNum 3) ∅) in
  let customer : Change RawCustomer RawId := INSERT (mkRawCustomer (IdNum 7) ∅ ∅) in
  (tasks (exec (handleTaskChange task) w) = [mkTask "7" "5" ∅]
   ∧ tasks (twice (handleTaskChange task)) = [mkTask "7" "5" ∅; mkTask "7" "5" ∅]
   ∧ store (twice (handleTaskChange task)) ≠ store (exec (handleTaskChange task) w))
  ∧ (columns (twice (handleColumnChange (INSERT col))) = [col; col]
     ∧ columns (exec (handleColumnChange (INSERT col))
                  (exec (setColumns (appendColumn col)) w)) = [col; col])
  ∧ employees (twice (handleEmployeeChange row)) = [mkEntity "3" ∅; mkEntity "3" ∅]
  ∧ templateTasks (twice (handleTemplateTaskChange row))
    = [mkEntity "3" ∅; mkEntity "3" ∅]
  ∧ customers (twice (handleCustomerChange customer)) = [mkCustomer "7" ∅ ∅]
  ∧ store (twice (handleCustomerChange customer))
    = store (exec (handleCustomerChange customer) w).
Proof. split_and!; by vm_compute. Qed.

(** ** The optimistic update and the request *)

Lemma applyQueue_snoc {A : Type} (queue : list (A → A)) (updater : A → A) (x : A) :
  React.applyQueue (queue ++ [updater]) x = updater (React.applyQueue queue x).
Proof. unfold React.applyQueue. by rewrite foldl_app. Qed.

(** Whatever the renders of a run, each request is issued with the
    collections that the updaters called before it produce. *)
Lemma run_requestsWith (steps : list React.Step) (s : React.State) :
  React.planned <$> React.issued (React.run steps s)
  = (React.planned <$> React.issued s)
    ++ React.requestsWith (React.callsOf steps)
         (React.nextCustomers s) (React.nextTasks s).
Proof.
  revert s. induction steps as [|e steps IH]; intros s.
  - simpl. by rewrite app_nil_r.
  - change (React.run (e :: steps) s) with (React.run steps (React.step s e)).
    rewrite IH. destruct e as [[updater|updater|r|f|f|msg|msg|cb ms]|];
      try reflexivity.
    + unfold React.nextCustomers at 1. cbn [React.step React.queuedCustomers
        React.shownCustomers]. by rewrite applyQueue_snoc.
    + unfold React.nextTasks at 1. cbn [React.step React.queuedTasks
        React.shownTasks]. by rewrite applyQueue_snoc.
    + cbn [React.step React.issued]. rewrite fmap_app, <- app_assoc.
      reflexivity.
Qed.

Lemma run_issuedWith (steps : list React.Step) (s : React.State)
    (cs : list React.Call) (reqs : list Request) (c : list Customer) (t : list Task) :
  React.callsOf steps = cs →
  React.requestsWith cs (React.nextCustomers s) (React.nextTasks s)
  = (λ r, (r, c, t)) <$> reqs →
  React.issuedWith s (React.run steps s) reqs c t.
Proof.
  intros Hcalls Hreqs. unfold React.issuedWith.
  by rewrite run_requestsWith, Hcalls, Hreqs.
Qed.

(** The call sequences run with the updaters applied at the call are the
    handlers of the first part. *)
Lemma exec_calls_app (cs more : list React.Call) (w : World) :
  exec (React.calls (cs ++ more)) w
  = exec (React.calls more) (exec (React.calls cs) w).
Proof.
  revert w. induction cs as [|c cs IH]; intros w; [done|].
  simpl. unfold exec, mbind, M_bind.
  destruct (React.call c w) as [u w1]. apply (IH w1).
Qed.

Lemma addCustomerSettle_calls w newId reply :
  exec (React.calls (React.addCustomerSettle newId reply)) w
  = exec (addCustomerSettle newId reply) w.
Proof.
  destruct reply as [[data|] [message|]]; try reflexivity.
  unfold React.addCustomerSettle, addCustomerSettle. cbn [r_error r_data].
  destruct (decide (String_ (rc_id data) ≠ newId)); reflexivity.
Qed.

Lemma addTaskSettle_calls w newId reply :
  exec (React.calls (React.addTaskSettle newId reply)) w
  = exec (addTaskSettle newId reply) w.
Proof.
  destruct reply as [[data|] [message|]]; try reflexivity.
  unfold React.addTaskSettle, addTaskSettle. cbn [r_error r_data].
  destruct (decide (String_ (rt_id data) ≠ newId)); reflexivity.
Qed.

Lemma addCustomerOptimistic_calls w newId (c : Customer) :
  exec (React.calls [React.CPendingAdds (λ p, {[newId]} ∪ p);
                     React.CSetCustomers (λ prev, prev ++ [c]);
                     React.CRequest (InsertCustomer (customerPayload c))]) w
  = mkWorld (customers w ++ [c]) (columns w) (tasks w) (employees w)
      (templateTasks w) ({[newId]} ∪ pendingAdds w) (pendingTaskAdds w)
      (clock w) (timers w)
      ((trace w ++ [StoreCustomers]) ++ [Remote (InsertCustomer (customerPayload c))]).
Proof. reflexivity. Qed.

Lemma addTaskOptimistic_calls w newId (t : Task) :
  exec (React.calls [React.CPendingTaskAdds (λ p, {[newId]} ∪ p);
                     React.CSetTasks (λ prev, prev ++ [t]);
                     React.CRequest (InsertTask (taskPayload t))]) w
  = mkWorld (customers w) (columns w) (tasks w ++ [t]) (employees w)
      (templateTasks w) (pendingAdds w) ({[newId]} ∪ pendingTaskAdds w)
      (clock w) (timers w)
      ((trace w ++ [StoreTasks]) ++ [Remote (InsertTask (taskPayload t))]).
Proof. reflexivity. Qed.

Lemma handleAddCustomer_calls w customerData rnd iso reply :
  exec (React.calls (React.handleAddCustomer (clock w) (columns w) customerData
                       rnd iso reply)) w
  = exec (handleAddCustomer customerData rnd iso reply) w.
Proof.
  rewrite handleAddCustomer_split. unfold React.handleAddCustomer. cbv zeta.
  rewrite exec_calls_app, addCustomerSettle_calls, addCustomerOptimistic_calls.
  by f_equal.
Qed.

Lemma handleAddTask_calls w task rnd iso reply :
  exec (React.calls (React.handleAddTask (clock w) task rnd iso reply)) w
  = exec (handleAddTask task rnd iso reply) w.
Proof.
  rewrite handleAddTask_split. unfold React.handleAddTask. cbv zeta.
  rewrite exec_calls_app, addTaskSettle_calls, addTaskOptimistic_calls.
  by f_equal.
Qed.

Lemma handleUpdateCustomer_calls w customerId updatedFields current :
  exec (React.calls (React.handleUpdateCustomer customerId updatedFields current)) w
  = exec (handleUpdateCustomer customerId updatedFields current) w.
Proof.
  destruct updatedFields as [uid urest [d|]];
    [destruct current as [[currentData|] [message|]]|]; reflexivity.
Qed.

(** C8, as amended.  In every mutation handler (create, update and delete,
    of a customer or of a task) the state setter is called with the
    optimistic updater before any request of the operation is issued, and
    the operation issues at least one request.  So, wherever React places
    its renders in the run of the handler ([steps]), each request of the
    operation is issued at a time when the optimistic update is applied or
    queued: the collection the next render shows is the one the updater
    gives, the other collection being untouched.  The call sequences are
    those of the handlers: run with the updaters applied at the call they
    give the handlers' results. *)
Theorem optimistic_update_queued_before_request (w : World)
    (customerData : CustomerDraft) (task : TaskDraft) (rnd : Z) (iso : string)
    (replyC : Reply RawCustomer) (replyT : Reply RawTask)
    (id : string) (fieldsC : PartialCustomer) (current : Reply (gmap string JsVal))
    (fieldsT : PartialTask) (s : React.State) (steps : list React.Step) :
  let newC := newCustomer (customerLocalId (clock w) rnd) customerData (columns w) iso in
  let newT := newTask (taskLocalId (clock w) rnd) task iso in
  let s' := React.run steps s in
  let c := React.nextCustomers s in
  let t := React.nextTasks s in
  (exec (React.calls (React.handleAddCustomer (clock w) (columns w) customerData
                        rnd iso replyC)) w
   = exec (handleAddCustomer customerData rnd iso replyC) w
   ∧ (React.callsOf steps
      = React.handleAddCustomer (clock w) (columns w) customerData rnd iso replyC →
      React.issuedWith s s' [InsertCustomer (customerPayload newC)] (c ++ [newC]) t))
  ∧ (exec (React.calls (React.handleUpdateCustomer id fieldsC current)) w
     = exec (handleUpdateCustomer id fieldsC current) w
     ∧ (React.callsOf steps = React.handleUpdateCustomer id fieldsC current →
        ∃ r more,
          React.issuedWith s s' (r :: more)
            ((λ x, if decide (c_id x = id) then applyCustomerUpdate fieldsC x else x)
               <$> c) t))
  ∧ (exec (React.calls (React.handleDeleteCustomer id)) w
     = exec (handleDeleteCustomer id) w
     ∧ (React.callsOf steps = React.handleDeleteCustomer id →
        React.issuedWith s s' [DeleteTasksOfCustomer id; DeleteCustomer id]
          (filter (λ x, c_id x ≠ id) c) t))
  ∧ (exec (React.calls (React.handleAddTask (clock w) task rnd iso replyT)) w
     = exec (handleAddTask task rnd iso replyT) w
     ∧ (React.callsOf steps = React.handleAddTask (clock w) task rnd iso replyT →
        React.issuedWith s s' [InsertTask (taskPayload newT)] c (t ++ [newT])))
  ∧ (exec (React.calls (React.handleUpdateTask id fieldsT)) w
     = exec (handleUpdateTask id fieldsT) w
     ∧ (React.callsOf steps = React.handleUpdateTask id fieldsT →
        React.issuedWith s s' [UpdateTask id fieldsT] c
          ((λ x, if decide (t_id x = id) then applyTaskUpdate fieldsT x else x)
             <$> t)))
  ∧ (exec (React.calls (React.handleDeleteTask id)) w
     = exec (handleDeleteTask id) w
     ∧ (React.callsOf steps = React.handleDeleteTask id →
        React.issuedWith s s' [DeleteTask id] c (filter (λ x, t_id x ≠ id) t))).
Proof.
  intros newC newT s' c t. split_and!.
  - apply handleAddCustomer_calls.
  - intros Hcalls. apply (run_issuedWith _ _ _ _ _ _ Hcalls).
    unfold React.handleAddCustomer, React.addCustomerSettle.
    destruct replyC as [[data|] [message|]]; try reflexivity.
    cbn [r_error r_data].
    destruct (decide (String_ (rc_id data) ≠ customerLocalId (clock w) rnd));
      reflexivity.
  - apply handleUpdateCustomer_calls.
  - intros Hcalls. unfold React.handleUpdateCustomer in Hcalls.
    destruct fieldsC as [uid urest [d|]];
      [destruct current as [[currentData|] [message|]]|];
      cbn in Hcalls;
      first [ eexists _, []; (eapply run_issuedWith; [exact Hcalls|]);
              cbn; reflexivity
            | eexists _, [_]; (eapply run_issuedWith; [exact Hcalls|]);
              cbn; reflexivity ].
  - reflexivity.
  - intros Hcalls. by apply (run_issuedWith _ _ _ _ _ _ Hcalls).
  - apply handleAddTask_calls.
  - intros Hcalls. apply (run_issuedWith _ _ _ _ _ _ Hcalls).
    unfold React.handleAddTask, React.addTaskSettle.
    destruct replyT as [[data|] [message|]]; try reflexivity.
    cbn [r_error r_data].
    destruct (decide (String_ (rt_id data) ≠ taskLocalId (clock w) rnd));
      reflexivity.
  - reflexivity.
  - intros Hcalls. by apply (run_issuedWith _ _ _ _ _ _ Hcalls).
  - reflexivity.
  - intros Hcalls. by apply (run_issuedWith _ _ _ _ _ _ Hcalls).
Qed.

Lemma optimistic_update_queued_before_request_witness :
  let t7 := mkTask "7" "5" ∅ in
  let t8 := mkTask "8" "5" ∅ in
  let s := React.mkState [] [t7; t8] [] [] [] in
  let steps := [React.Run (React.CSetTasks (filter (λ x, t_id x ≠ "7")));
                React.Render;
                React.Run (React.CRequest (DeleteTask "7"))] in
  React.issuedWith s (React.run steps s) [DeleteTask "7"] []
    (filter (λ x, t_id x ≠ "7") [t7; t8])
  ∧ filter (λ x, t_id x ≠ "7") [t7; t8] = [t8].
Proof.
  intros t7 t8 s steps. split; [|by vm_compute].
  pose proof (optimistic_update_queued_before_request
                (mkWorld [] [] [] [] [] ∅ ∅ 0 [] [])
                (mkCustomerDraft ∅ ∅) (mkTaskDraft "5" ∅) 5
                "2026-01-01T00:00:00.000Z" (mkReply None None) (mkReply None None)
                "7" (mkPartialCustomer None ∅ None) (mkReply None None)
                (mkPartialTask None None ∅) s steps)
    as (_ & _ & _ & _ & _ & _ & H).
  apply H. reflexivity.
Defined.

(** C8 as first stated fails: the setter only queues the updater, and the
    handler issues its request without waiting for a render.  Task "7" is
    deleted; React renders once the handler has run to its [await].  The
    delete request is issued while the task collection still shows task
    "7"; the optimistic removal is applied by the render that follows. *)
Lemma request_before_render_counterexample :
  let t7 := mkTask "7" "5" ∅ in
  let t8 := mkTask "8" "5" ∅ in
  let s := React.mkState [] [t7; t8] [] [] [] in
  let steps := (React.Run <$> React.handleDeleteTask "7") ++ [React.Render] in
  React.callsOf steps = React.handleDeleteTask "7"
  ∧ (λ i, (React.i_request i, React.i_shownTasks i))
      <$> React.issued (React.run steps s) = [(DeleteTask "7", [t7; t8])]
  ∧ React.shownTasks (React.run steps s) = [t8].
Proof. split_and!; [reflexivity|by vm_compute|by vm_compute]. Qed.

(** ** Optimistic customer update *)

Lemma handleUpdateCustomer_customers w customerId updatedFields current :
  customers (exec (handleUpdateCustomer customerId updatedFields current) w)
  = (λ c, if decide (c_id c = customerId)
          then applyCustomerUpdate updatedFields c else c) <$> customers w.
Proof.
  destruct updatedFields as [uid urest [d|]];
    [destruct current as [[currentData|] [message|]]|]; reflexivity.
Qed.

(** C10.  An optimistic customer update that names a partial [data] map
    merges it into the stored one: in the targeted customer every key the
    update names takes the new value and every other key of [data] keeps
    its previous value; a customer with another identifier is left as it
    was, at its position. *)
Theorem update_customer_merges_data (w : World) (customerId : string)
    (updatedFields : PartialCustomer) (d : gmap string JsVal)
    (current : Reply (gmap string JsVal)) :
  pc_data updatedFields = Some d →
  let w' := exec (handleUpdateCustomer customerId updatedFields current) w in
  length (customers w') = length (customers w)
  ∧ ∀ (i : nat) (c : Customer), customers w !! i = Some c →
      (c_id c ≠ customerId → customers w' !! i = Some c)
      ∧ (c_id c = customerId →
         ∃ c', customers w' !! i = Some c'
               ∧ (∀ k v, d !! k = Some v → c_data c' !! k = Some v)
               ∧ (∀ k, d !! k = None → c_data c' !! k = c_data c !! k)).
Proof.
  intros Hd w'. subst w'. rewrite handleUpdateCustomer_customers.
  split; [by rewrite length_fmap|].
  intros i c Hi. rewrite list_lookup_fmap, Hi. simpl. split; intros Hid.
  - by rewrite decide_False.
  - rewrite decide_True by done. eexists. split; [done|].
    unfold applyCustomerUpdate. rewrite Hd. simpl. split.
    + intros k v Hk. by apply lookup_union_Some_l.
    + intros k Hk. by apply lookup_union_r.
Qed.

Lemma update_customer_merges_data_witness :
  let c := mkCustomer "5" {["name" := VStr "Yamada"]}
             {["phone" := VStr "090"; "memo" := VStr "old"]} in
  let other := mkCustomer "6" ∅ {["memo" := VStr "keep"]} in
  let w := mkWorld [c; other] [] [] [] [] ∅ ∅ 0 [] [] in
  let upd := mkPartialCustomer None ∅ (Some {["memo" := VStr "new"]}) in
  let w' := exec (handleUpdateCustomer "5" upd (mkReply None None)) w in
  customers w' !! 1%nat = Some other
  ∧ ∃ c', customers w' !! 0%nat = Some c'
          ∧ c_data c' !! "memo" = Some (VStr "new")
          ∧ c_data c' !! "phone" = c_data c !! "phone".
Proof.
  intros c other w upd w'.
  pose proof (update_customer_merges_data w "5" upd {["memo" := VStr "new"]}
                (mkReply None None) eq_refl) as [_ H].
  split.
  - apply (H 1%nat other); [reflexivity|]. vm_compute. discriminate.
  - destruct (H 0%nat c eq_refl) as [_ Hc].
    destruct (Hc eq_refl) as (c' & Hc' & Hnew & Hold).
    exists c'. split; [exact Hc'|]. split.
    + apply Hnew. reflexivity.
    + apply Hold. reflexivity.
Defined.

(** ** The grace period of a confirmed create *)

Lemma exec_seq {A} (m : M unit) (k : M A) (w : World) :
  exec (m;; k) w = exec k (exec m w).
Proof. unfold exec, mbind, M_bind. by destruct (m w). Qed.







(** The world a confirmed customer create leaves, whether or not the
    server kept the local identifier. *)
Lemma handleAddCustomer_confirmed w customerData rnd iso data :
  let newId := customerLocalId (clock w) rnd in
  let returnedId := String_ (rc_id data) in
  let w' := exec (handleAddCustomer customerData rnd iso
                    (mkReply (Some data) None)) w in
  timers w' = timers w ++ [(clock w + 5000, ReleaseCustomer newId returnedId)]
  ∧ clock w' = clock w
  ∧ returnedId ∈ pendingAdds w'
  ∧ (returnedId ≠ newId → newId ∉ pendingAdds w')
  ∧ returnedId ∈ c_id <$> customers w'.
Proof.
  intros newId returnedId w'.
  destruct (decide (returnedId = newId)) as [Heq|Hne].
  - subst w'. rewrite handleAddCustomer_split. fold newId.
    rewrite addCustomerSettle_same by done. fold returnedId. rewrite Heq.
    cbn [timers clock pendingAdds customers].
    unfold exec. rewrite addCustomerOptimistic_run. cbn. fold newId.
    split_and!; try done.
    + set_solver.
    + rewrite fmap_app. set_solver.
  - destruct (handleAddCustomer_swapped w customerData rnd iso data Hne)
      as (Hc & Hp & Ht & Hk).
    fold newId returnedId w' in Hc, Hp, Ht, Hk.
    rewrite Hc, Hp, Ht, Hk. split_and!; try done.
    + set_solver.
    + set_solver.
    + rewrite fmap_app. set_solver.
Qed.







(** ** Column reordering *)

Lemma insertByOrder_Permutation (c : Column) (l : list Column) :
  insertByOrder c l ≡ₚ c :: l.
Proof.
  induction l as [|d l IH]; simpl; [done|].
  destruct (decide (col_order c ≤ col_order d)); [done|].
  rewrite IH. apply Permutation_swap.
Qed.

Lemma sortedColumns_Permutation (l : list Column) : sortedColumns l ≡ₚ l.
Proof.
  unfold sortedColumns. induction l as [|c l IH]; simpl; [done|].
  by rewrite insertByOrder_Permutation, IH.
Qed.

(** With pairwise distinct identifiers, [findIndex] inverts the lookup. *)
Lemma findIndex_lookup (l : list Column) (j : nat) (c : Column) :
  NoDup (col_id <$> l) → l !! j = Some c →
  findIndex (col_id c) l = Z.of_nat j.
Proof.
  intros Hnd Hj. unfold findIndex.
  assert (list_find (λ d, col_id d = col_id c) l = Some (j, c)) as ->; [|done].
  apply list_find_Some. split_and!; [done..|].
  intros j' d Hj' Hlt Heq.
  assert (j' = j) as ->; [|lia].
  apply (NoDup_lookup (col_id <$> l) j' j (col_id c)); [done|..].
  - by rewrite list_lookup_fmap, Hj', <- Heq.
  - by rewrite list_lookup_fmap, Hj.
Qed.

Lemma findIndex_orders (l : list Column) :
  NoDup (col_id <$> l) →
  (λ c, findIndex (col_id c) l) <$> l = Z.of_nat <$> seq 0 (length l).
Proof.
  intros Hnd. apply list_eq. intros j.
  rewrite !list_lookup_fmap.
  destruct (l !! j) as [c|] eqn:Hj; simpl.
  - rewrite (findIndex_lookup l j c) by done.
    rewrite lookup_seq_lt by (by eapply lookup_lt_Some). done.
  - rewrite lookup_seq_ge by (by apply lookup_ge_None). done.
Qed.

Lemma findIndex_found (id : string) (l : list Column) :
  id ∈ col_id <$> l →
  ∃ (i : nat) (d : Column),
    findIndex id l = Z.of_nat i ∧ l !! i = Some d ∧ col_id d = id.
Proof.
  intros Hin. unfold findIndex.
  destruct (list_find (λ c, col_id c = id) l) as [[i d]|] eqn:Hf.
  - apply list_find_Some in Hf as (Hi & Hd & _). by exists i, d.
  - apply list_find_None in Hf.
    apply list_elem_of_fmap in Hin as (c & -> & Hc).
    rewrite Forall_forall in Hf. by destruct (Hf c Hc).
Qed.

(** Taking the column at position [i] out and putting it back at [k]. *)
Lemma splice_move (l : list Column) (i k : nat) (d : Column) :
  l !! i = Some d → (k < length l)%nat →
  let '(removed, rest) := spliceOut (Z.of_nat i) l in
  removed = [d]
  ∧ spliceIn (Z.of_nat k) d rest ≡ₚ l
  ∧ spliceIn (Z.of_nat k) d rest !! k = Some d.
Proof.
  intros Hi Hk. pose proof (lookup_lt_Some _ _ _ Hi) as Hlt.
  unfold spliceOut, spliceIn, spliceStart.
  rewrite !decide_False by lia. rewrite !Nat2Z.id.
  rewrite (Nat.min_l i) by lia.
  assert (length (take i l ++ drop (S i) l) = (length l - 1)%nat) as Hlen.
  { rewrite length_app, length_take, length_drop. lia. }
  rewrite Hlen, (Nat.min_l k) by lia.
  split_and!.
  - rewrite (drop_S l d i Hi). simpl. by rewrite take_0.
  - etransitivity; [symmetry; apply Permutation_middle|].
    rewrite take_drop.
    etransitivity; [apply Permutation_middle|].
    by rewrite take_drop_middle.
  - apply list_lookup_middle. rewrite length_take. lia.
Qed.

(** C9, as amended.  When the columns have pairwise distinct identifiers,
    the dragged column has a non-empty identifier found among them and the
    drop index is within bounds, the drop handler hands the update handler
    a list with the same columns at the same places, equal to the old ones
    in everything but [order]; the new [order] fields are a permutation of
    0..n-1, and the dragged column's is the drop index. *)
Theorem column_drop_reorders (columns : list Column) (id : string) (k : nat) :
  NoDup (col_id <$> columns) → id ≠ "" → id ∈ col_id <$> columns →
  (k < length columns)%nat →
  ∃ final,
    handleDrop columns (Some id) (Some k) = Some final
    ∧ withOrder 0 <$> final = withOrder 0 <$> columns
    ∧ col_order <$> final ≡ₚ Z.of_nat <$> seq 0 (length columns)
    ∧ ∀ c, c ∈ final → col_id c = id → col_order c = Z.of_nat k.
Proof.
  intros Hnd Hid Hin Hk. unfold handleDrop. rewrite decide_False by done.
  pose proof (sortedColumns_Permutation columns) as Hsort.
  set (sorted := sortedColumns columns) in *.
  assert (id ∈ col_id <$> sorted) as Hin' by (by rewrite Hsort).
  destruct (findIndex_found id sorted Hin') as (i & d & -> & Hi & Hd).
  assert (k < length sorted)%nat as Hk' by (by rewrite Hsort).
  pose proof (splice_move sorted i k d Hi Hk') as Hmove.
  destruct (spliceOut (Z.of_nat i) sorted) as [removed rest].
  destruct Hmove as (-> & Hperm & Hat).
  set (new := spliceIn (Z.of_nat k) d rest) in *.
  assert (new ≡ₚ columns) as Hnew by (by rewrite Hperm).
  assert (NoDup (col_id <$> new)) as Hnd' by (by rewrite Hnew).
  eexists. split; [reflexivity|]. split_and!.
  - rewrite <- list_fmap_compose. by apply list_fmap_ext.
  - rewrite <- list_fmap_compose.
    change (col_order ∘ (λ col, withOrder (findIndex (col_id col) new) col))
      with (λ col, findIndex (col_id col) new).
    rewrite <- Hnew at 1. rewrite findIndex_orders by done.
    by rewrite Hnew.
  - intros c Hc Hcid.
    apply list_elem_of_fmap in Hc as (col & -> & Hcol). simpl in *.
    rewrite Hcid, <- Hd. by apply findIndex_lookup.
Qed.

Lemma column_drop_reorders_witness :
  let col := λ i o, mkColumn i i CText o None true in
  let columns := [col "b" 1; col "a" 0; col "d" 3; col "c" 2] in
  ∃ final,
    handleDrop columns (Some "a") (Some 2%nat) = Some final
    ∧ withOrder 0 <$> final = withOrder 0 <$> columns
    ∧ col_order <$> final ≡ₚ Z.of_nat <$> seq 0 (length columns)
    ∧ ∀ c, c ∈ final → col_id c = "a" → col_order c = Z.of_nat 2.
Proof.
  intros col columns.
  apply (column_drop_reorders columns "a" 2).
  - apply (bool_decide_unpack _). vm_compute. exact I.
  - discriminate.
  - apply (bool_decide_unpack _). vm_compute. exact I.
  - simpl. lia.
Defined.

(** C9 as first stated fails when two columns share an identifier (as
    after a column insert is echoed by the change feed): both get the same
    [order], so the orders are no permutation of 0..n-1 and the dragged
    column does not get the drop index.  It also fails for a column whose
    identifier is the empty string, for which nothing is handed over. *)
Lemma column_drop_duplicate_counterexample :
  let a1 := mkColumn "a" "First" CText 0 None true in
  let a2 := mkColumn "a" "Second" CText 1 None true in
  (handleDrop [a1; a2] (Some "a") (Some 1%nat)
   = Some [withOrder 0 a1; withOrder 0 a2])
  ∧ ¬ ([0; 0] ≡ₚ Z.of_nat <$> seq 0 2)
  ∧ handleDrop [mkColumn "" "Untitled" CText 0 None true] (Some "") (Some 0%nat)
    = None.
Proof.
  split_and!; [by vm_compute| |by vm_compute].
  intros H. apply Permutation_cons_inv in H. simpl in H.
  apply Permutation_singleton_l in H. discriminate H.
Qed.

(** * Further properties of the handlers *)

(** ** Editing one field of a customer *)

Lemma handleUpdateCustomerData_customers w customerId field value current :
  customers (exec (handleUpdateCustomerData customerId field value current) w)
  = setCustomerField customerId field value <$> customers w.
Proof. destruct current as [[currentData|] [message|]]; reflexivity. Qed.

(** X1.  [handleUpdateCustomerData] changes, at once and in place, the one
    named key of the [data] of the customers under the given identifier:
    the key takes the new value, every other key, the identifier and the
    other fields are kept, and the customers under another identifier are
    untouched. *)
Theorem update_customer_data_sets_one_field (w : World) (customerId field : string)
    (value : JsVal) (current : Reply (gmap string JsVal)) :
  let w' := exec (handleUpdateCustomerData customerId field value current) w in
  length (customers w') = length (customers w)
  ∧ ∀ (i : nat) (c : Customer), customers w !! i = Some c →
      (c_id c ≠ customerId → customers w' !! i = Some c)
      ∧ (c_id c = customerId →
         ∃ c', customers w' !! i = Some c'
               ∧ c_id c' = c_id c ∧ c_rest c' = c_rest c
               ∧ c_data c' !! field = Some value
               ∧ ∀ k, k ≠ field → c_data c' !! k = c_data c !! k).
Proof.
  intros w'. subst w'. rewrite handleUpdateCustomerData_customers.
  split; [by rewrite length_fmap|].
  intros i c Hi. rewrite list_lookup_fmap, Hi. simpl.
  unfold setCustomerField. split; intros Hid.
  - by rewrite decide_False.
  - rewrite decide_True by done. eexists. split; [done|]. simpl.
    split_and!; try done.
    + apply lookup_insert_eq.
    + intros k Hk. by apply lookup_insert_ne.
Qed.

Lemma update_customer_data_sets_one_field_witness :
  let c := mkCustomer "5" {["name" := VStr "Yamada"]}
             {["phone" := VStr "090"; "memo" := VStr "old"]} in
  let w := mkWorld [mkCustomer "6" ∅ ∅; c] [] [] [] [] ∅ ∅ 0 [] [] in
  let w' := exec (handleUpdateCustomerData "5" "memo" (VStr "new")
                    (mkReply None (Some "timeout"))) w in
  customers w' !! 0%nat = Some (mkCustomer "6" ∅ ∅)
  ∧ ∃ c', customers w' !! 1%nat = Some c'
          ∧ c_data c' !! "memo" = Some (VStr "new")
          ∧ c_data c' !! "phone" = c_data c !! "phone".
Proof.
  intros c w w'.
  pose proof (update_customer_data_sets_one_field w "5" "memo" (VStr "new")
                (mkReply None (Some "timeout"))) as [_ H].
  split.
  - apply (H 0%nat (mkCustomer "6" ∅ ∅)); [reflexivity|]. discriminate.
  - destruct (H 1%nat c eq_refl) as [_ Hc].
    destruct (Hc eq_refl) as (c' & Hc' & _ & _ & Hnew & Hold).
    exists c'. split; [exact Hc'|]. split; [exact Hnew|].
    apply Hold. discriminate.
Defined.

(** X2.  The write-back of [handleUpdateCustomerData] starts from the
    server's copy of [data], not from the local one: when the select
    succeeds, one update follows whose [data] has the new value under the
    named key and the server's value under every other key; when the
    select fails or returns no row, no update is sent at all, although the
    store has already been changed. *)
Theorem update_customer_data_write_back (w : World) (customerId field : string)
    (value : JsVal) (current : Reply (gmap string JsVal)) :
  let w' := exec (handleUpdateCustomerData customerId field value current) w in
  (∀ currentData, current = mkReply (Some currentData) None →
     ∃ newData,
       requests (trace w') = requests (trace w) ++
         [SelectCustomerData customerId;
          UpdateCustomer customerId (mkPartialCustomer None ∅ (Some newData))]
       ∧ newData !! field = Some value
       ∧ ∀ k, k ≠ field → newData !! k = currentData !! k)
  ∧ ((is_Some (r_error current) ∨ r_data current = None) →
       requests (trace w') = requests (trace w) ++ [SelectCustomerData customerId]
       ∧ customers w' = setCustomerField customerId field value <$> customers w).
Proof.
  intros w'. split.
  - intros currentData ->. eexists. split_and!.
    + subst w'. unfold exec. simpl. unfold requests.
      rewrite <- !app_assoc, omap_app. reflexivity.
    + apply lookup_insert_eq.
    + intros k Hk. by apply lookup_insert_ne.
  - intros Hfail. split; [|apply handleUpdateCustomerData_customers].
    subst w'.
    destruct current as [[currentData|] [message|]]; simpl in Hfail;
      try (unfold exec; simpl; unfold requests;
           rewrite <- !app_assoc, omap_app; reflexivity).
    destruct Hfail as [[? Hs]|Hn]; discriminate.
Qed.

Lemma update_customer_data_write_back_witness :
  let w := mkWorld [mkCustomer "5" ∅ {["memo" := VStr "local"]}] [] [] [] []
             ∅ ∅ 0 [] [] in
  requests (trace (exec (handleUpdateCustomerData "5" "memo" (VStr "new")
                           (mkReply None (Some "timeout"))) w))
  = requests (trace w) ++ [SelectCustomerData "5"].
Proof.
  intros w.
  apply (update_customer_data_write_back w "5" "memo" (VStr "new")
           (mkReply None (Some "timeout"))).
  left. exists "timeout". reflexivity.
Defined.

(** ** The requests of a customer update *)

(** X3.  [handleUpdateCustomer] sends its update directly when the change
    does not name [data].  When it does, the stored [data] is selected
    first: on a reply with a row, the update carries the named keys over
    the server's [data] and the other fields as given; on an error or a
    missing row, nothing is written. *)
Theorem update_customer_requests (w : World) (customerId : string)
    (updatedFields : PartialCustomer) (current : Reply (gmap string JsVal)) :
  let w' := exec (handleUpdateCustomer customerId updatedFields current) w in
  (pc_data updatedFields = None →
     requests (trace w') = requests (trace w) ++
       [UpdateCustomer customerId updatedFields])
  ∧ (∀ d currentData,
       pc_data updatedFields = Some d → current = mkReply (Some currentData) None →
       ∃ newData,
         requests (trace w') = requests (trace w) ++
           [SelectCustomerData customerId;
            UpdateCustomer customerId
              (mkPartialCustomer (pc_id updatedFields) (pc_rest updatedFields)
                 (Some newData))]
         ∧ (∀ k v, d !! k = Some v → newData !! k = Some v)
         ∧ (∀ k, d !! k = None → newData !! k = currentData !! k))
  ∧ (∀ d, pc_data updatedFields = Some d →
       is_Some (r_error current) ∨ r_data current = None →
       requests (trace w') = requests (trace w) ++ [SelectCustomerData customerId]).
Proof.
  intros w'. subst w'. destruct updatedFields as [uid urest udata]. simpl.
  split_and!.
  - intros ->. unfold exec. simpl. unfold requests.
    rewrite <- !app_assoc, omap_app. reflexivity.
  - intros d currentData -> ->. eexists. split_and!.
    + unfold exec. simpl. unfold requests.
      rewrite <- !app_assoc, omap_app. reflexivity.
    + intros k v Hk. by apply lookup_union_Some_l.
    + intros k Hk. by apply lookup_union_r.
  - intros d -> Hfail.
    destruct current as [[currentData|] [message|]]; simpl in Hfail;
      try (unfold exec; simpl; unfold requests;
           rewrite <- !app_assoc, omap_app; reflexivity).
    destruct Hfail as [[? Hs]|Hn]; discriminate.
Qed.

Lemma update_customer_requests_witness :
  let w := mkWorld [mkCustomer "5" ∅ {["memo" := VStr "local"]}] [] [] [] []
             ∅ ∅ 0 [] [] in
  let status := mkPartialCustomer None {["status" := VStr "契約"]} None in
  let memo := mkPartialCustomer None ∅ (Some {["memo" := VStr "new"]}) in
  requests (trace (exec (handleUpdateCustomer "5" status (mkReply None None)) w))
  = requests (trace w) ++ [UpdateCustomer "5" status]
  ∧ requests (trace (exec (handleUpdateCustomer "5" memo (mkReply None None)) w))
    = requests (trace w) ++ [SelectCustomerData "5"].
Proof.
  intros w status memo. split.
  - apply (update_customer_requests w "5" status (mkReply None None)).
    reflexivity.
  - pose proof (update_customer_requests w "5" memo (mkReply None None))
      as (_ & _ & H).
    apply (H {["memo" := VStr "new"]}); [reflexivity|].
    right. reflexivity.
Defined.

(** ** Replies of a create that leave the optimistic record *)

(** X4.  A reply of the insert with neither an error nor a row makes the
    create handlers do nothing more: the optimistic record stays in the
    store, its identifier stays pending, no release is queued and no alert
    is raised. *)
Theorem create_reply_without_row_or_error (w : World) (customerData : CustomerDraft)
    (task : TaskDraft) (rnd : Z) (iso : string) :
  let cId := customerLocalId (clock w) rnd in
  let tId := taskLocalId (clock w) rnd in
  let wc := exec (handleAddCustomer customerData rnd iso (mkReply None None)) w in
  let wt := exec (handleAddTask task rnd iso (mkReply None None)) w in
  (customers wc = customers w ++ [newCustomer cId customerData (columns w) iso]
   ∧ cId ∈ pendingAdds wc
   ∧ timers wc = timers w
   ∧ alerts (trace wc) = alerts (trace w))
  ∧ (tasks wt = tasks w ++ [newTask tId task iso]
     ∧ tId ∈ pendingTaskAdds wt
     ∧ timers wt = timers w
     ∧ alerts (trace wt) = alerts (trace w)).
Proof.
  intros cId tId wc wt. split; split_and!; try done.
  - change (pendingAdds wc) with ({[cId]} ∪ pendingAdds w). set_solver.
  - subst wc. unfold exec. simpl. unfold alerts.
    rewrite !omap_app. simpl. by rewrite !app_nil_r.
  - change (pendingTaskAdds wt) with ({[tId]} ∪ pendingTaskAdds w). set_solver.
  - subst wt. unfold exec. simpl. unfold alerts.
    rewrite !omap_app. simpl. by rewrite !app_nil_r.
Qed.

(** X5.  When the server's row comes back under the local identifier, the
    optimistic record is kept as it is (the returned row is not copied into
    the store), the identifier stays pending, and one release is queued
    5000 ms ahead. *)
Theorem create_success_same_identifier (w : World) (customerData : CustomerDraft)
    (task : TaskDraft) (rnd : Z) (iso : string)
    (dataC : RawCustomer) (dataT : RawTask) :
  let cId := customerLocalId (clock w) rnd in
  let tId := taskLocalId (clock w) rnd in
  let wc := exec (handleAddCustomer customerData rnd iso (mkReply (Some dataC) None)) w in
  let wt := exec (handleAddTask task rnd iso (mkReply (Some dataT) None)) w in
  (String_ (rc_id dataC) = cId →
     customers wc = customers w ++ [newCustomer cId customerData (columns w) iso]
     ∧ pendingAdds wc = {[cId]} ∪ pendingAdds w
     ∧ timers wc = timers w ++ [(clock w + 5000, ReleaseCustomer cId cId)])
  ∧ (String_ (rt_id dataT) = tId →
       tasks wt = tasks w ++ [newTask tId task iso]
       ∧ pendingTaskAdds wt = {[tId]} ∪ pendingTaskAdds w
       ∧ timers wt = timers w ++ [(clock w + 5000, ReleaseTask tId tId)]).
Proof.
  intros cId tId wc wt. split; intros Heq.
  - subst wc. rewrite handleAddCustomer_split. fold cId.
    by rewrite addCustomerSettle_same.
  - subst wt. rewrite handleAddTask_split. fold tId.
    by rewrite addTaskSettle_same.
Qed.

Lemma create_success_same_identifier_witness :
  let w := mkWorld [] [] [] [] [] ∅ ∅ 1000 [] [] in
  let row := mkRawCustomer (IdStr "c_1000_5") {["name" := VStr "Server"]} ∅ in
  let draft := mkCustomerDraft {["name" := VStr "Yamada"]} ∅ in
  customers (exec (handleAddCustomer draft 5 "2026-01-01T00:00:00.000Z"
                     (mkReply (Some row) None)) w)
  = customers w ++ [newCustomer "c_1000_5" draft [] "2026-01-01T00:00:00.000Z"].
Proof.
  intros w row draft.
  apply (create_success_same_identifier w draft (mkTaskDraft "5" ∅) 5
           "2026-01-01T00:00:00.000Z" row (mkRawTask (IdNum 7) (IdNum 5) ∅)).
  reflexivity.
Defined.

(** ** The initial [data] of a new customer *)

Lemma initialValue_idem (k : string) (v : option JsVal) :
  initialValue k (initialValue k v) = initialValue k v.
Proof.
  unfold initialValue. destruct v as [[]|]; try done.
  by destruct (decide (k ∈ objectPrototypeNames)).
Qed.

Lemma fillInitialData_lookup (cols : list Column) (data : gmap string JsVal)
    (k : string) :
  fillInitialData cols data !! k
  = if decide (k ∈ col_id <$> cols) then initialValue k (data !! k)
    else data !! k.
Proof.
  unfold fillInitialData. revert data.
  induction cols as [|col cols IH]; intros data.
  - destruct (decide (k ∈ col_id <$> [])) as [Hin|_]; [|done].
    by apply elem_of_nil in Hin.
  - cbn [foldl].
    set (data' := match data !! col_id col with
                  | Some VUndefined => <[col_id col := VStr ""]> data
                  | Some _ => data
                  | None => if decide (col_id col ∈ objectPrototypeNames)
                            then data else <[col_id col := VStr ""]> data
                  end).
    rewrite (IH data'). rewrite fmap_cons.
    destruct (decide (k = col_id col)) as [->|Hne].
    + assert (data' !! col_id col = initialValue (col_id col) (data !! col_id col))
        as Hstep.
      { subst data'. unfold initialValue.
        destruct (data !! col_id col) as [v|] eqn:Hv.
        - destruct v; rewrite ?lookup_insert_eq; done.
        - destruct (decide (col_id col ∈ objectPrototypeNames));
            rewrite ?lookup_insert_eq; done. }
      rewrite (decide_True (P := col_id col ∈ col_id col :: _))
        by apply list_elem_of_here.
      rewrite Hstep.
      destruct (decide (col_id col ∈ col_id <$> cols)); [|done].
      apply initialValue_idem.
    + assert (data' !! k = data !! k) as Hstep.
      { subst data'. destruct (data !! col_id col) as [[]|];
          [..|destruct (decide (col_id col ∈ objectPrototypeNames))];
          rewrite ?lookup_insert_ne; done. }
      rewrite Hstep.
      destruct (decide (k ∈ col_id <$> cols)) as [Hin|Hout].
      * rewrite decide_True; [done|]. by apply list_elem_of_further.
      * rewrite decide_False; [done|]. by apply not_elem_of_cons.
Qed.

(** X6.  The [data] of a new customer under the column identifiers: a
    value given in the draft is kept when it is not [undefined]; an
    [undefined] one becomes the empty string, and so does a missing one
    unless the identifier is a name every object inherits (such as
    [constructor]), under which nothing is written.  So every column whose
    identifier is not an inherited name has a defined value.  Keys that are
    no column identifier are passed through. *)
Theorem new_customer_data_covers_columns (newId : string) (customerData : CustomerDraft)
    (cols : list Column) (iso : string) :
  let data := c_data (newCustomer newId customerData cols iso) in
  (∀ col, col ∈ cols → col_id col ∉ objectPrototypeNames →
          ∃ v, data !! col_id col = Some v ∧ v ≠ VUndefined)
  ∧ (∀ k v, cd_data customerData !! k = Some v → v ≠ VUndefined →
            data !! k = Some v)
  ∧ (∀ k, k ∈ col_id <$> cols →
          cd_data customerData !! k = Some VUndefined
          ∨ (cd_data customerData !! k = None ∧ k ∉ objectPrototypeNames) →
          data !! k = Some (VStr ""))
  ∧ (∀ k, k ∈ objectPrototypeNames → cd_data customerData !! k = None →
          data !! k = None)
  ∧ (∀ k, k ∉ col_id <$> cols → data !! k = cd_data customerData !! k).
Proof.
  intros data. subst data. cbn [newCustomer c_data].
  assert (∀ k v, cd_data customerData !! k = Some v → v ≠ VUndefined →
                 fillInitialData cols (cd_data customerData) !! k = Some v)
    as Hkeep.
  { intros k v Hk Hv. rewrite fillInitialData_lookup, Hk.
    destruct (decide (k ∈ col_id <$> cols)); [|done]. by destruct v. }
  assert (∀ k, k ∈ col_id <$> cols →
               cd_data customerData !! k = Some VUndefined
               ∨ (cd_data customerData !! k = None ∧ k ∉ objectPrototypeNames) →
               fillInitialData cols (cd_data customerData) !! k = Some (VStr ""))
    as Hfill.
  { intros k Hk Hmiss. rewrite fillInitialData_lookup, decide_True by done.
    destruct Hmiss as [-> | [-> Hout]]; [done|].
    unfold initialValue. by rewrite decide_False. }
  split_and!.
  - intros col Hcol Hout.
    assert (col_id col ∈ col_id <$> cols) as Hin by (by apply list_elem_of_fmap_2).
    destruct (cd_data customerData !! col_id col) as [v|] eqn:Hv.
    + destruct (decide (v = VUndefined)) as [->|Hne].
      * exists (VStr ""). split; [|done]. apply Hfill; [done|by left].
      * exists v. split; [|done]. by apply Hkeep.
    + exists (VStr ""). split; [|done]. apply Hfill; [done|by right].
  - exact Hkeep.
  - exact Hfill.
  - intros k Hk Hmiss. rewrite fillInitialData_lookup, Hmiss.
    destruct (decide (k ∈ col_id <$> cols)); [|done].
    unfold initialValue. by rewrite decide_True.
  - intros k Hk. by rewrite fillInitialData_lookup, decide_False.
Qed.

Lemma new_customer_data_covers_columns_witness :
  let cols := [mkColumn "sales_rep" "Rep" CPerson 0 None false;
               mkColumn "budget" "Budget" CCurrency 1 None true;
               mkColumn "constructor" "Builder" CText 2 None true] in
  let draft := mkCustomerDraft ∅ {["sales_rep" := VStr "Sato"]} in
  let data := c_data (newCustomer "c_1000_5" draft cols "2026-01-01T00:00:00.000Z") in
  data !! "sales_rep" = Some (VStr "Sato")
  ∧ data !! "budget" = Some (VStr "")
  ∧ data !! "constructor" = None.
Proof.
  intros cols draft data.
  pose proof (new_customer_data_covers_columns "c_1000_5" draft cols
                "2026-01-01T00:00:00.000Z") as (_ & Hkeep & Hfill & Hproto & _).
  split_and!.
  - apply Hkeep; [reflexivity|discriminate].
  - apply Hfill.
    + apply (bool_decide_unpack _). vm_compute. exact I.
    + right. split; [reflexivity|].
      intros Hin. apply list_elem_of_In in Hin. vm_compute in Hin.
      repeat (destruct Hin as [Hin|Hin]; [discriminate Hin|]). exact Hin.
  - apply Hproto; [|reflexivity].
    apply (bool_decide_unpack _). vm_compute. exact I.
Defined.

(** ** Task update *)

(** X7.  [handleUpdateTask] overlays the given fields on the tasks under the
    given identifier, in place: a named field takes the new value, a field
    that is not named keeps its value, and the tasks under another
    identifier are untouched.  One update request follows. *)
Theorem update_task_overlays_fields (w : World) (taskId : string)
    (updatedFields : PartialTask) :
  let w' := exec (handleUpdateTask taskId updatedFields) w in
  length (tasks w') = length (tasks w)
  ∧ requests (trace w') = requests (trace w) ++ [UpdateTask taskId updatedFields]
  ∧ ∀ (i : nat) (t : Task), tasks w !! i = Some t →
      (t_id t ≠ taskId → tasks w' !! i = Some t)
      ∧ (t_id t = taskId →
         ∃ t', tasks w' !! i = Some t'
               ∧ t_id t' = default (t_id t) (pt_id updatedFields)
               ∧ t_customerId t' = default (t_customerId t) (pt_customerId updatedFields)
               ∧ (∀ k v, pt_rest updatedFields !! k = Some v → t_rest t' !! k = Some v)
               ∧ (∀ k, pt_rest updatedFields !! k = None →
                       t_rest t' !! k = t_rest t !! k)).
Proof.
  intros w'.
  assert (tasks w' = (λ t, if decide (t_id t = taskId)
                           then applyTaskUpdate updatedFields t else t) <$> tasks w)
    as -> by reflexivity.
  split_and!.
  - by rewrite length_fmap.
  - subst w'. unfold exec. simpl. unfold requests.
    rewrite <- !app_assoc, omap_app. reflexivity.
  - intros i t Hi. rewrite list_lookup_fmap, Hi. simpl. split; intros Hid.
    + by rewrite decide_False.
    + rewrite decide_True by done. eexists. split; [done|]. simpl.
      split_and!; try done.
      * intros k v Hk. by apply lookup_union_Some_l.
      * intros k Hk. by apply lookup_union_r.
Qed.

Lemma update_task_overlays_fields_witness :
  let t := mkTask "7" "5" {["title" := VStr "Survey"; "done" := VBool false]} in
  let w := mkWorld [] [] [t; mkTask "8" "5" ∅] [] [] ∅ ∅ 0 [] [] in
  let upd := mkPartialTask None None {["done" := VBool true]} in
  let w' := exec (handleUpdateTask "7" upd) w in
  tasks w' !! 1%nat = Some (mkTask "8" "5" ∅)
  ∧ ∃ t', tasks w' !! 0%nat = Some t'
          ∧ t_rest t' !! "done" = Some (VBool true)
          ∧ t_rest t' !! "title" = t_rest t !! "title".
Proof.
  intros t w upd w'.
  pose proof (update_task_overlays_fields w "7" upd) as (_ & _ & H).
  split.
  - apply (H 1%nat (mkTask "8" "5" ∅)); [reflexivity|]. discriminate.
  - destruct (H 0%nat t eq_refl) as [_ Ht].
    destruct (Ht eq_refl) as (t' & Ht' & _ & _ & Hnew & Hold).
    exists t'. split; [exact Ht'|]. split.
    + apply Hnew. reflexivity.
    + apply Hold. reflexivity.
Defined.

(** ** Change-feed events for an identifier that is not in the store *)

(** X8.  An update or a delete event whose identifier no stored record
    carries leaves the collection as it is: an update never inserts a
    missing record.  This holds for the customer, task, column and
    employee/template-task handlers. *)
Theorem change_for_unknown_id_is_ignored :
  (∀ (new : RawCustomer) (c : list Customer),
     String_ (rc_id new) ∉ c_id <$> c → customerChange (UPDATE new) c = c)
  ∧ (∀ (old : RawId) (c : list Customer),
       String_ old ∉ c_id <$> c → customerChange (DELETE old) c = c)
  ∧ (∀ (new : RawTask) (t : list Task),
       String_ (rt_id new) ∉ t_id <$> t → taskChange (UPDATE new) t = t)
  ∧ (∀ (old : RawId) (t : list Task),
       String_ old ∉ t_id <$> t → taskChange (DELETE old) t = t)
  ∧ (∀ (new : Column) (c : list Column),
       col_id new ∉ col_id <$> c → columnChange (UPDATE new) c = c)
  ∧ (∀ (old : string) (c : list Column),
       old ∉ col_id <$> c → columnChange (DELETE old) c = c)
  ∧ (∀ (new : RawEntity) (e : list Entity),
       String_ (re_id new) ∉ e_id <$> e → entityChange (UPDATE new) e = e)
  ∧ (∀ (old : RawId) (e : list Entity),
       String_ old ∉ e_id <$> e → entityChange (DELETE old) e = e).
Proof.
  split_and!; intros x l Hx; simpl;
    first [ by apply (replace_fresh c_id) | by apply (replace_fresh t_id)
          | by apply (replace_fresh col_id) | by apply (replace_fresh e_id)
          | by apply filter_ne_fresh ].
Qed.

Lemma change_for_unknown_id_is_ignored_witness :
  let store := [mkCustomer "41" ∅ ∅; mkCustomer "42" ∅ ∅] in
  customerChange (UPDATE (mkRawCustomer (IdNum 43) {["name" := VStr "Ito"]} ∅)) store
  = store.
Proof.
  intros store.
  apply (proj1 change_for_unknown_id_is_ignored).
  intros H. apply list_elem_of_In in H. vm_compute in H.
  destruct H as [H|[H|[]]]; discriminate H.
Defined.

(** ** Pairwise distinct identifiers *)

Lemma NoDup_ids_filter {A} (key : A → string) (P : A → Prop)
    `{!∀ x, Decision (P x)} (l : list A) :
  NoDup (key <$> l) → NoDup (key <$> filter P l).
Proof.
  induction l as [|a l IH]; [done|].
  rewrite fmap_cons, NoDup_cons. intros [Ha Hl].
  destruct (decide (P a)).
  - rewrite filter_cons_True by done. rewrite fmap_cons, NoDup_cons.
    split; [|by apply IH].
    intros Hin. apply Ha. apply list_elem_of_fmap in Hin as (b & -> & Hb).
    apply list_elem_of_filter in Hb as [_ Hb]. by apply list_elem_of_fmap_2.
  - rewrite filter_cons_False by done. by apply IH.
Qed.

Lemma replace_same_ids {A} (key : A → string) (x : string) (r : A) (l : list A) :
  key r = x →
  key <$> ((λ item, if decide (key item = x) then r else item) <$> l) = key <$> l.
Proof.
  intros Hr. rewrite <- list_fmap_compose. apply list_fmap_ext.
  intros i item _. simpl. destruct (decide (key item = x)); congruence.
Qed.

(** X9.  The customer change-feed handler keeps the identifiers of the
    store pairwise distinct, whatever the event; the task handler does so
    for update and delete events. *)
Theorem change_feed_keeps_ids_distinct :
  (∀ w (payload : Change RawCustomer RawId),
     NoDup (c_id <$> customers w) →
     NoDup (c_id <$> customers (exec (handleCustomerChange payload) w)))
  ∧ (∀ w (payload : Change RawTask RawId),
       isInsert payload = false → NoDup (t_id <$> tasks w) →
       NoDup (t_id <$> tasks (exec (handleTaskChange payload) w))).
Proof.
  split.
  - intros w payload Hnd.
    change (customers (exec (handleCustomerChange payload) w))
      with (customerChange payload (customers w)).
    destruct payload as [new|new|old]; simpl.
    + destruct (decide (Exists (λ existing, c_id existing = String_ (rc_id new))
                          (customers w))) as [|Hout]; [done|].
      rewrite fmap_app. apply NoDup_app. split_and!; [done| |apply NoDup_singleton].
      intros x Hx. simpl. rewrite list_elem_of_singleton. intros ->.
      apply Hout. by apply Exists_id_elem_of.
    + by rewrite (replace_same_ids c_id).
    + by apply NoDup_ids_filter.
  - intros w payload Hk Hnd.
    change (tasks (exec (handleTaskChange payload) w))
      with (taskChange payload (tasks w)).
    destruct payload as [new|new|old]; simpl; [done| |].
    + by rewrite (replace_same_ids t_id).
    + by apply NoDup_ids_filter.
Qed.

Lemma change_feed_keeps_ids_distinct_witness :
  let w := mkWorld [mkCustomer "41" ∅ ∅; mkCustomer "42" ∅ ∅] [] [] [] [] ∅ ∅ 0 [] [] in
  NoDup (c_id <$> customers
           (exec (handleCustomerChange (INSERT (mkRawCustomer (IdNum 42) ∅ ∅))) w)).
Proof.
  intros w. apply (proj1 change_feed_keeps_ids_distinct).
  apply (bool_decide_unpack _). vm_compute. exact I.
Defined.

(** X10.  A refresh whose snapshot has pairwise distinct identifiers (as
    strings) leaves a store with pairwise distinct identifiers, provided the
    store had them before: a retained record never shares its identifier
    with a fetched one. *)
Theorem refresh_keeps_ids_distinct (w : World)
    (cd : option (list RawCustomer)) (cols : option (list Column))
    (td : option (list RawTask)) (ed ttd : option (list RawEntity)) :
  let w' := exec (fetchAllData cd cols td ed ttd) w in
  (NoDup (c_id <$> (normalize <$> default [] cd)) → NoDup (c_id <$> customers w) →
   NoDup (c_id <$> customers w'))
  ∧ (NoDup (t_id <$> (normalizeTask <$> default [] td)) → NoDup (t_id <$> tasks w) →
     NoDup (t_id <$> tasks w')).
Proof.
  intros w'. subst w'. split; intros Hf Hp.
  - rewrite fetchAllData_customers. cbv zeta. rewrite fmap_app.
    apply NoDup_app. split_and!; [done| |by apply NoDup_ids_filter].
    intros x Hx Hin. apply list_elem_of_fmap in Hin as (c & -> & Hc).
    apply list_elem_of_filter in Hc as [[_ Hout] _]. done.
  - rewrite fetchAllData_tasks. cbv zeta. rewrite fmap_app.
    apply NoDup_app. split_and!; [done| |by apply NoDup_ids_filter].
    intros x Hx Hin. apply list_elem_of_fmap in Hin as (c & -> & Hc).
    apply list_elem_of_filter in Hc as [[_ Hout] _]. done.
Qed.

Lemma refresh_keeps_ids_distinct_witness :
  let w := mkWorld [mkCustomer "41" ∅ ∅; mkCustomer "c_1000_5" ∅ ∅] [] [] [] []
             {["c_1000_5"]} ∅ 0 [] [] in
  NoDup (c_id <$> customers
           (exec (fetchAllData (Some [mkRawCustomer (IdNum 41) ∅ ∅;
                                      mkRawCustomer (IdNum 42) ∅ ∅])
                    None None None None) w)).
Proof.
  intros w.
  apply (refresh_keeps_ids_distinct w
           (Some [mkRawCustomer (IdNum 41) ∅ ∅; mkRawCustomer (IdNum 42) ∅ ∅])
           None None None None).
  - apply (bool_decide_unpack _). vm_compute. exact I.
  - apply (bool_decide_unpack _). vm_compute. exact I.
Defined.

(** ** What a refresh shows *)

(** X11.  After a refresh, the records under an identifier of the snapshot
    are exactly the fetched ones (no stale local copy beside them), and the
    identifier is no longer pending. *)
Theorem refresh_shows_fetched_version (w : World)
    (cd : option (list RawCustomer)) (cols : option (list Column))
    (td : option (list RawTask)) (ed ttd : option (list RawEntity)) (x : string) :
  let w' := exec (fetchAllData cd cols td ed ttd) w in
  (x ∈ c_id <$> (normalize <$> default [] cd) →
   filter (λ c, c_id c = x) (customers w')
   = filter (λ c, c_id c = x) (normalize <$> default [] cd)
   ∧ x ∉ pendingAdds w')
  ∧ (x ∈ t_id <$> (normalizeTask <$> default [] td) →
     filter (λ t, t_id t = x) (tasks w')
     = filter (λ t, t_id t = x) (normalizeTask <$> default [] td)
     ∧ x ∉ pendingTaskAdds w').
Proof.
  intros w'. subst w'. split; intros Hx.
  - rewrite fetchAllData_customers, fetchAllData_pendingAdds. cbv zeta. split.
    + rewrite filter_app, (filter_none (λ c, c_id c = x) (filter _ _)).
      * by rewrite app_nil_r.
      * intros c Hc Heq. apply list_elem_of_filter in Hc as [[_ Hout] _].
        apply Hout. by rewrite Heq.
    + rewrite elem_of_difference, elem_of_list_to_set. tauto.
  - rewrite fetchAllData_tasks, fetchAllData_pendingTaskAdds. cbv zeta. split.
    + rewrite filter_app, (filter_none (λ c, t_id c = x) (filter _ _)).
      * by rewrite app_nil_r.
      * intros c Hc Heq. apply list_elem_of_filter in Hc as [[_ Hout] _].
        apply Hout. by rewrite Heq.
    + rewrite elem_of_difference, elem_of_list_to_set. tauto.
Qed.

Lemma refresh_shows_fetched_version_witness :
  let w := mkWorld [mkCustomer "42" {["name" := VStr "local"]} ∅] [] [] [] []
             {["42"]} ∅ 0 [] [] in
  let row := mkRawCustomer (IdNum 42) {["name" := VStr "server"]} ∅ in
  let w' := exec (fetchAllData (Some [row]) None None None None) w in
  filter (λ c, c_id c = "42") (customers w') = [normalize row]
  ∧ "42" ∉ pendingAdds w'.
Proof.
  intros w row w'.
  apply (refresh_shows_fetched_version w (Some [row]) None None None None "42").
  apply (bool_decide_unpack _). vm_compute. exact I.
Defined.

(** X12.  After a refresh the store holds no record under an identifier
    that is neither in the snapshot nor pending: what the server no longer
    has, and nobody is creating, disappears. *)
Theorem refresh_drops_unprotected (w : World)
    (cd : option (list RawCustomer)) (cols : option (list Column))
    (td : option (list RawTask)) (ed ttd : option (list RawEntity)) (x : string) :
  let w' := exec (fetchAllData cd cols td ed ttd) w in
  (x ∉ c_id <$> (normalize <$> default [] cd) → x ∉ pendingAdds w →
   x ∉ c_id <$> customers w')
  ∧ (x ∉ t_id <$> (normalizeTask <$> default [] td) → x ∉ pendingTaskAdds w →
     x ∉ t_id <$> tasks w').
Proof.
  intros w'. subst w'. split; intros Hout Hp.
  - rewrite fetchAllData_customers. cbv zeta.
    rewrite fmap_app, not_elem_of_app. split; [done|].
    intros Hin. apply list_elem_of_fmap in Hin as (c & -> & Hc).
    apply list_elem_of_filter in Hc as [[Hpend _] _].
    apply elem_of_difference in Hpend as [? _]. done.
  - rewrite fetchAllData_tasks. cbv zeta.
    rewrite fmap_app, not_elem_of_app. split; [done|].
    intros Hin. apply list_elem_of_fmap in Hin as (c & -> & Hc).
    apply list_elem_of_filter in Hc as [[Hpend _] _].
    apply elem_of_difference in Hpend as [? _]. done.
Qed.

Lemma refresh_drops_unprotected_witness :
  let w := mkWorld [mkCustomer "41" ∅ ∅; mkCustomer "42" ∅ ∅] [] [] [] []
             ∅ ∅ 0 [] [] in
  "41" ∉ c_id <$> customers
           (exec (fetchAllData (Some [mkRawCustomer (IdNum 42) ∅ ∅])
                    None None None None) w).
Proof.
  intros w.
  apply (refresh_drops_unprotected w (Some [mkRawCustomer (IdNum 42) ∅ ∅])
           None None None None "41").
  - intros H. apply list_elem_of_In in H. vm_compute in H.
    destruct H as [H|[]]. discriminate H.
  - vm_compute. intros H. discriminate H.
Defined.

(** ** The sorted column list *)

Lemma insertByOrder_sorted (c : Column) (l : list Column) :
  StronglySorted (λ a b, col_order a ≤ col_order b) l →
  StronglySorted (λ a b, col_order a ≤ col_order b) (insertByOrder c l).
Proof.
  induction l as [|d l IH]; simpl; intros Hs.
  - by repeat constructor.
  - apply StronglySorted_inv in Hs as [Hl Hd].
    destruct (decide (col_order c ≤ col_order d)) as [Hle|Hgt].
    + constructor; [by constructor|].
      constructor; [done|].
      eapply Forall_impl; [exact Hd|]. simpl. intros x Hx. lia.
    + constructor; [by apply IH|].
      rewrite insertByOrder_Permutation. constructor; [lia|done].
Qed.

Lemma insertByOrder_filter (c : Column) (l : list Column) (o : Z) :
  filter (λ x, col_order x = o) (insertByOrder c l)
  = filter (λ x, col_order x = o) (c :: l).
Proof.
  induction l as [|d l IH]; simpl; [done|].
  destruct (decide (col_order c ≤ col_order d)) as [Hle|Hgt]; [done|].
  rewrite (filter_cons _ d), IH, !(filter_cons _ c), (filter_cons _ d).
  destruct (decide (col_order d = o)), (decide (col_order c = o)); try done.
  lia.
Qed.

(** X13.  The sorted column list holds the same columns as the column
    list, in ascending [order]; columns with the same [order] keep the
    relative position they have in the column list. *)
Theorem sorted_columns_ascending_and_stable (columns : list Column) :
  sortedColumns columns ≡ₚ columns
  ∧ StronglySorted (λ a b, col_order a ≤ col_order b) (sortedColumns columns)
  ∧ ∀ o, filter (λ c, col_order c = o) (sortedColumns columns)
         = filter (λ c, col_order c = o) columns.
Proof.
  split_and!.
  - apply sortedColumns_Permutation.
  - unfold sortedColumns. induction columns as [|c l IH]; simpl.
    + constructor.
    + by apply insertByOrder_sorted.
  - intros o. unfold sortedColumns. induction columns as [|c l IH]; simpl; [done|].
    rewrite insertByOrder_filter, !(filter_cons _ c), IH. done.
Qed.

(** ** More on the column drop *)

Lemma remove_lookup {A} (l : list A) (i j : nat) (a : A) :
  l !! j = Some a → j ≠ i →
  (take i l ++ drop (S i) l) !! (if decide (j < i)%nat then j else (j - 1)%nat)
  = Some a.
Proof.
  intros Hj Hne. pose proof (lookup_lt_Some _ _ _ Hj) as Hlt.
  destruct (decide (j < i)%nat) as [Hlo|Hhi].
  - rewrite lookup_app_l by (rewrite length_take; lia).
    by rewrite lookup_take_lt.
  - rewrite lookup_app_r by (rewrite length_take; lia).
    rewrite length_take, lookup_drop, <- Hj. f_equal. lia.
Qed.

Lemma insert_lookup {A} (r : list A) (k j : nat) (d a : A) :
  r !! j = Some a → (k ≤ length r)%nat →
  (take k r ++ d :: drop k r) !! (if decide (j < k)%nat then j else S j) = Some a.
Proof.
  intros Hj Hk. pose proof (lookup_lt_Some _ _ _ Hj) as Hlt.
  destruct (decide (j < k)%nat) as [Hlo|Hhi].
  - rewrite lookup_app_l by (rewrite length_take; lia).
    by rewrite lookup_take_lt.
  - rewrite lookup_app_r by (rewrite length_take; lia).
    rewrite length_take, Nat.min_l by lia.
    replace (S j - k)%nat with (S (j - k)) by lia. simpl.
    rewrite lookup_drop, <- Hj. f_equal. lia.
Qed.

(** The drop handler, once the position [i] at which [splice] takes a
    column out of the sorted list is known. *)
Lemma handleDrop_from_position (columns : list Column) (id : string)
    (k i : nat) (d : Column) :
  id ≠ "" →
  spliceStart (findIndex id (sortedColumns columns))
    (length (sortedColumns columns)) = i →
  sortedColumns columns !! i = Some d → (k < length columns)%nat →
  ∃ new,
    handleDrop columns (Some id) (Some k)
    = Some ((λ col, withOrder (findIndex (col_id col) new) col) <$> columns)
    ∧ new ≡ₚ columns
    ∧ new !! k = Some d
    ∧ ∀ j a, sortedColumns columns !! j = Some a → j ≠ i →
        new !! (if decide ((if decide (j < i)%nat then j else (j - 1)%nat) < k)%nat
                then (if decide (j < i)%nat then j else (j - 1)%nat)
                else S (if decide (j < i)%nat then j else (j - 1)%nat)) = Some a.
Proof.
  intros Hid Hstart Hi Hk. unfold handleDrop. rewrite decide_False by done.
  pose proof (sortedColumns_Permutation columns) as Hsort.
  set (sorted := sortedColumns columns) in *.
  pose proof (lookup_lt_Some _ _ _ Hi) as Hlt.
  assert (length sorted = length columns) as Hlen by (by rewrite Hsort).
  unfold spliceOut. rewrite Hstart.
  rewrite (drop_S sorted d i Hi). simpl. rewrite ?take_0.
  set (rest := take i sorted ++ drop (S i) sorted).
  assert (length rest = (length sorted - 1)%nat) as Hrest.
  { subst rest. rewrite length_app, length_take, length_drop. lia. }
  unfold spliceIn, spliceStart. rewrite decide_False by lia.
  rewrite Nat2Z.id, Hrest, (Nat.min_l k) by lia.
  eexists. split; [reflexivity|]. split_and!.
  - etransitivity; [symmetry; apply Permutation_middle|].
    rewrite take_drop. subst rest.
    etransitivity; [apply Permutation_middle|].
    by rewrite take_drop_middle.
  - apply list_lookup_middle. rewrite length_take. lia.
  - intros j a Hj Hne. apply insert_lookup; [|lia].
    subst rest. by apply remove_lookup.
Qed.

(** X14.  When the dragged identifier is carried by no column (and is not
    empty), [findIndex] answers -1 and [splice] takes out the last column
    of the sorted list: with pairwise distinct identifiers and a drop index
    within bounds, it is that last column which gets the drop index as its
    [order], and the new [order] fields are again a permutation of
    0..n-1. *)
Theorem column_drop_of_absent_id_moves_last (columns : list Column) (id : string)
    (k : nat) :
  NoDup (col_id <$> columns) → id ≠ "" → id ∉ col_id <$> columns →
  (k < length columns)%nat →
  ∃ final d,
    handleDrop columns (Some id) (Some k) = Some final
    ∧ last (sortedColumns columns) = Some d
    ∧ col_order <$> final ≡ₚ Z.of_nat <$> seq 0 (length columns)
    ∧ ∀ c, c ∈ final → col_id c = col_id d → col_order c = Z.of_nat k.
Proof.
  intros Hnd Hid Hout Hk.
  pose proof (sortedColumns_Permutation columns) as Hsort.
  assert (length (sortedColumns columns) = length columns) as Hlen
    by (by rewrite Hsort).
  assert (findIndex id (sortedColumns columns) = -1) as Hfind.
  { unfold findIndex.
    destruct (list_find (λ c, col_id c = id) (sortedColumns columns))
      as [[i c]|] eqn:Hf; [|done].
    apply list_find_Some in Hf as (Hi & Hc & _).
    destruct Hout. rewrite <- Hsort, <- Hc.
    apply list_elem_of_fmap_2. by eapply list_elem_of_lookup_2. }
  destruct (sortedColumns columns !! (length columns - 1)%nat) as [d|] eqn:Hd;
    [|apply lookup_ge_None in Hd; lia].
  destruct (handleDrop_from_position columns id k (length columns - 1)%nat d)
    as (new & Hdrop & Hnew & Hat & _); [done| |done|done|].
  { rewrite Hfind, Hlen. unfold spliceStart. rewrite decide_True by lia. lia. }
  assert (NoDup (col_id <$> new)) as Hnd' by (by rewrite Hnew).
  eexists _, d. split; [exact Hdrop|]. split_and!.
  - rewrite last_lookup, Hlen. rewrite <- Hd. f_equal. lia.
  - rewrite <- list_fmap_compose.
    change (col_order ∘ (λ col, withOrder (findIndex (col_id col) new) col))
      with (λ col, findIndex (col_id col) new).
    rewrite <- Hnew at 1. rewrite findIndex_orders by done.
    by rewrite Hnew.
  - intros c Hc Hcid.
    apply list_elem_of_fmap in Hc as (col & -> & Hcol). simpl in *.
    rewrite Hcid. by apply findIndex_lookup.
Qed.

Lemma column_drop_of_absent_id_moves_last_witness :
  let col := λ i o, mkColumn i i CText o None true in
  let columns := [col "b" 1; col "a" 0; col "d" 3; col "c" 2] in
  ∃ final d,
    handleDrop columns (Some "gone") (Some 1%nat) = Some final
    ∧ last (sortedColumns columns) = Some d
    ∧ col_order <$> final ≡ₚ Z.of_nat <$> seq 0 (length columns)
    ∧ ∀ c, c ∈ final → col_id c = col_id d → col_order c = Z.of_nat 1.
Proof.
  intros col columns.
  apply (column_drop_of_absent_id_moves_last columns "gone" 1).
  - apply (bool_decide_unpack _). vm_compute. exact I.
  - discriminate.
  - apply (bool_decide_unpack _). vm_compute. exact I.
  - simpl. lia.
Defined.

(** X15.  A drop does not reorder the other columns: for two columns other
    than the dragged one, the one that came first in the sorted list
    before the drop has the smaller [order] after it. *)
Theorem column_drop_keeps_others_in_order (columns : list Column) (id : string)
    (k p q : nat) (a b : Column) :
  NoDup (col_id <$> columns) → id ≠ "" → id ∈ col_id <$> columns →
  (k < length columns)%nat →
  columns !! p = Some a → columns !! q = Some b →
  col_id a ≠ id → col_id b ≠ id →
  ∃ final a' b',
    handleDrop columns (Some id) (Some k) = Some final
    ∧ final !! p = Some a' ∧ final !! q = Some b'
    ∧ (findIndex (col_id a) (sortedColumns columns)
         < findIndex (col_id b) (sortedColumns columns)
       ↔ col_order a' < col_order b').
Proof.
  intros Hnd Hid Hin Hk Hp Hq Ha Hb.
  pose proof (sortedColumns_Permutation columns) as Hsort.
  set (sorted := sortedColumns columns) in *.
  assert (NoDup (col_id <$> sorted)) as Hnds by (by rewrite Hsort).
  assert (id ∈ col_id <$> sorted) as Hin' by (by rewrite Hsort).
  destruct (findIndex_found id sorted Hin') as (i & d & Hfind & Hi & Hd).
  pose proof (lookup_lt_Some _ _ _ Hi) as Hlt.
  destruct (handleDrop_from_position columns id k i d)
    as (new & Hdrop & Hnew & _ & Hmoved); [done| |done|done|].
  { fold sorted. rewrite Hfind. unfold spliceStart.
    rewrite decide_False by lia. rewrite Nat2Z.id. lia. }
  fold sorted in Hmoved.
  assert (NoDup (col_id <$> new)) as Hnd' by (by rewrite Hnew).
  assert (∀ c, c ∈ columns → col_id c ≠ id →
            ∃ j, (j ≠ i) ∧ findIndex (col_id c) sorted = Z.of_nat j
                 ∧ findIndex (col_id c) new
                   = Z.of_nat (if decide ((if decide (j < i)%nat then j
                                           else (j - 1)%nat) < k)%nat
                               then (if decide (j < i)%nat then j else (j - 1)%nat)
                               else S (if decide (j < i)%nat then j
                                       else (j - 1)%nat))) as Hrank.
  { intros c Hc Hcid. rewrite <- Hsort in Hc.
    apply list_elem_of_lookup in Hc as [j Hj]. exists j.
    assert (j ≠ i) as Hne by (intros ->; congruence).
    split_and!; [done|by apply findIndex_lookup|].
    apply findIndex_lookup; [done|]. by apply Hmoved. }
  destruct (Hrank a) as (ja & Hja & -> & Hna);
    [by eapply list_elem_of_lookup_2|done|].
  destruct (Hrank b) as (jb & Hjb & -> & Hnb);
    [by eapply list_elem_of_lookup_2|done|].
  eexists _, _, _. split; [exact Hdrop|].
  rewrite !list_lookup_fmap, Hp, Hq. simpl.
  split_and!; [done|done|].
  rewrite Hna, Hnb. clear Hmoved Hrank Hna Hnb. unfold withOrder. simpl.
  destruct (decide (ja < i)%nat), (decide (jb < i)%nat);
    repeat case_decide; lia.
Qed.

Lemma column_drop_keeps_others_in_order_witness :
  let col := λ i o, mkColumn i i CText o None true in
  let columns := [col "b" 1; col "a" 0; col "d" 3; col "c" 2] in
  ∃ final b' c',
    handleDrop columns (Some "a") (Some 2%nat) = Some final
    ∧ final !! 0%nat = Some b' ∧ final !! 3%nat = Some c'
    ∧ (findIndex "b" (sortedColumns columns) < findIndex "c" (sortedColumns columns)
       ↔ col_order b' < col_order c').
Proof.
  intros col columns.
  apply (column_drop_keeps_others_in_order columns "a" 2 0 3 (col "b" 1) (col "c" 2)).
  - apply (bool_decide_unpack _). vm_compute. exact I.
  - discriminate.
  - apply (bool_decide_unpack _). vm_compute. exact I.
  - simpl. lia.
  - reflexivity.
  - reflexivity.
  - discriminate.
  - discriminate.
Defined.

(** ** Hiding and showing columns *)

Lemma sortedColumns_elem_of (columns : list Column) (col : Column) :
  col ∈ sortedColumns columns ↔ col ∈ columns.
Proof. by rewrite sortedColumns_Permutation. Qed.

(** X16.  Hiding a column on a status tab takes the columns under that
    identifier out of the tab's visible columns and hides nothing else;
    showing it puts them back and changes the visibility of no other
    column.  Both leave the other tabs alone, and on the 'All' tab both do
    nothing. *)
Theorem hide_and_show_column (columns : list Column)
    (h : gmap string (list string)) (s id : string) :
  (∃ h', Sheet.handleHideColumn h (Status s) id = Some h'
         ∧ (∀ col, col ∈ Sheet.visibleColumns columns h' (Status s) ↔
                   col ∈ Sheet.visibleColumns columns h (Status s) ∧ col_id col ≠ id)
         ∧ (∀ s', s' ≠ s → h' !! s' = h !! s'))
  ∧ (∃ h', Sheet.handleShowColumn h (Status s) id = Some h'
           ∧ (∀ col, col ∈ columns → col_id col = id →
                     col ∈ Sheet.visibleColumns columns h' (Status s))
           ∧ (∀ col, col_id col ≠ id →
                     (col ∈ Sheet.visibleColumns columns h' (Status s) ↔
                      col ∈ Sheet.visibleColumns columns h (Status s)))
           ∧ (∀ s', s' ≠ s → h' !! s' = h !! s'))
  ∧ Sheet.handleHideColumn h All id = None
  ∧ Sheet.handleShowColumn h All id = None.
Proof.
  split_and!; [| |done|done].
  - eexists. split; [reflexivity|]. split.
    + intros col. unfold Sheet.visibleColumns. rewrite lookup_insert_eq.
      rewrite list_elem_of_filter, not_elem_of_app, list_elem_of_singleton.
      destruct (h !! s) as [hidden|]; simpl.
      * rewrite list_elem_of_filter. tauto.
      * rewrite elem_of_nil. tauto.
    + intros s' Hs. by apply lookup_insert_ne.
  - eexists. split; [reflexivity|]. split_and!.
    + intros col Hcol Hid. unfold Sheet.visibleColumns. rewrite lookup_insert_eq.
      apply list_elem_of_filter. split; [|by apply sortedColumns_elem_of].
      rewrite list_elem_of_filter. tauto.
    + intros col Hid. unfold Sheet.visibleColumns. rewrite lookup_insert_eq.
      rewrite !list_elem_of_filter.
      destruct (h !! s) as [hidden|]; simpl.
      * rewrite list_elem_of_filter. tauto.
      * rewrite elem_of_nil. tauto.
    + intros s' Hs. by apply lookup_insert_ne.
Qed.

Lemma hide_and_show_column_witness :
  let col := λ i o, mkColumn i i CText o None true in
  let columns := [col "b" 1; col "a" 0] in
  ∃ h', Sheet.handleShowColumn {["契約" := ["a"]]} (Status "契約") "a" = Some h'
        ∧ col "a" 0 ∈ Sheet.visibleColumns columns h' (Status "契約").
Proof.
  intros col columns.
  destruct (hide_and_show_column columns {["契約" := ["a"]]} "契約" "a")
    as (_ & (h' & Hshow & Hback & _) & _).
  exists h'. split; [exact Hshow|].
  apply Hback; [|reflexivity].
  apply list_elem_of_In. right. left. reflexivity.
Defined.

(** X17.  On every tab each column is either among the visible columns or
    among the hidden ones listed for the tab, never both. *)
Theorem visible_and_hidden_partition (columns : list Column)
    (h : gmap string (list string)) (tab : Tab) (col : Column) :
  col ∈ columns →
  (col ∈ Sheet.visibleColumns columns h tab ↔
   col ∉ Sheet.hiddenForCurrentTab columns h tab).
Proof.
  intros Hcol. unfold Sheet.visibleColumns, Sheet.hiddenForCurrentTab.
  destruct tab as [|s]; [|destruct (h !! s) as [hidden|]].
  - rewrite sortedColumns_elem_of, elem_of_nil. tauto.
  - rewrite !list_elem_of_filter, sortedColumns_elem_of. tauto.
  - rewrite sortedColumns_elem_of, elem_of_nil. tauto.
Qed.

Lemma visible_and_hidden_partition_witness :
  let col := λ i o, mkColumn i i CText o None true in
  col "b" 1 ∈ Sheet.visibleColumns [col "b" 1; col "a" 0] {["契約" := ["a"]]}
                (Status "契約")
  ↔ col "b" 1 ∉ Sheet.hiddenForCurrentTab [col "b" 1; col "a" 0]
                  {["契約" := ["a"]]} (Status "契約").
Proof.
  intros col.
  apply (visible_and_hidden_partition [col "b" 1; col "a" 0] {["契約" := ["a"]]}
           (Status "契約") (col "b" 1)).
  apply list_elem_of_In. left. reflexivity.
Defined.

(** ** Deleting an option of a select column *)




(** ** Adding a column *)

Lemma insertByOrder_snoc (x c : Column) (s : list Column) :
  col_order x ≤ col_order c →
  insertByOrder x (s ++ [c]) = insertByOrder x s ++ [c].
Proof.
  intros Hle. induction s as [|d s IH]; simpl.
  - by rewrite decide_True.
  - destruct (decide (col_order x ≤ col_order d)); [done|]. by rewrite IH.
Qed.

Lemma sortedColumns_snoc (columns : list Column) (c : Column) :
  Forall (λ x, col_order x ≤ col_order c) columns →
  sortedColumns (columns ++ [c]) = sortedColumns columns ++ [c].
Proof.
  unfold sortedColumns. induction 1 as [|x l Hx Hl IH]; simpl; [done|].
  rewrite IH. by apply insertByOrder_snoc.
Qed.

(** X19.  The sheet's add-column handler hands nothing over for an empty
    name.  Otherwise the new column takes the number of columns as its
    [order]: appended to a list whose [order] fields are a permutation of
    0..n-1, it gives a permutation of 0..n and comes last in the sorted
    list. *)
Theorem add_column_goes_last (columns : list Column) (newColName : string)
    (newColType : ColumnType) (now : Z) :
  (newColName = "" →
   Sheet.handleAddColumn columns newColName newColType now = None)
  ∧ (newColName ≠ "" →
     ∃ col,
       Sheet.handleAddColumn columns newColName newColType now = Some col
       ∧ col_title col = newColName ∧ col_type col = newColType
       ∧ col_options col = Some [] ∧ col_removable col = true
       ∧ (col_order <$> columns ≡ₚ Z.of_nat <$> seq 0 (length columns) →
          col_order <$> appendColumn col columns
            ≡ₚ Z.of_nat <$> seq 0 (S (length columns))
          ∧ sortedColumns (appendColumn col columns) = sortedColumns columns ++ [col])).
Proof.
  unfold Sheet.handleAddColumn. split; intros Hname.
  - by rewrite decide_True.
  - rewrite decide_False by done. eexists. split; [reflexivity|].
    split_and!; [done..|]. intros Hperm. unfold appendColumn. split.
    + rewrite fmap_app, Hperm, seq_S, fmap_app. done.
    + apply sortedColumns_snoc. simpl.
      apply Forall_forall. intros x Hx.
      assert (col_order x ∈ Z.of_nat <$> seq 0 (length columns)) as Hin.
      { rewrite <- Hperm. by apply list_elem_of_fmap_2. }
      apply list_elem_of_fmap in Hin as (j & -> & Hj).
      apply elem_of_seq in Hj. lia.
Qed.

Lemma add_column_goes_last_witness :
  let col := λ i o, mkColumn i i CText o None true in
  let columns := [col "b" 1; col "a" 0] in
  ∃ new,
    Sheet.handleAddColumn columns "Memo" CText 1000 = Some new
    ∧ sortedColumns (appendColumn new columns) = sortedColumns columns ++ [new].
Proof.
  intros col columns.
  destruct (add_column_goes_last columns "Memo" CText 1000) as [_ H].
  destruct H as (new & Hnew & _ & _ & _ & _ & Hlast); [discriminate|].
  exists new. split; [exact Hnew|].
  apply Hlast. apply (bool_decide_unpack _). vm_compute. exact I.
Defined.

(** ** The offline variant *)

(** X20.  In the offline variant, deleting a customer also deletes its
    tasks: afterwards no task refers to the deleted identifier, the tasks
    of the other customers are kept in order, and if every task referred
    to a stored customer before, every task still does. *)
Theorem offline_delete_customer_cascades (w : World) (customerId : string) :
  let w' := exec (Offline.handleDeleteCustomer customerId) w in
  customers w' = filter (λ c, c_id c ≠ customerId) (customers w)
  ∧ tasks w' = filter (λ t, t_customerId t ≠ customerId) (tasks w)
  ∧ (∀ t, t ∈ tasks w' → t_customerId t ≠ customerId)
  ∧ ((∀ t, t ∈ tasks w → t_customerId t ∈ c_id <$> customers w) →
     ∀ t, t ∈ tasks w' → t_customerId t ∈ c_id <$> customers w').
Proof.
  intros w'.
  assert (customers w' = filter (λ c, c_id c ≠ customerId) (customers w))
    as Hc by reflexivity.
  assert (tasks w' = filter (λ t, t_customerId t ≠ customerId) (tasks w))
    as Ht by reflexivity.
  rewrite Hc, Ht. split_and!; try done.
  - intros t Hin. by apply list_elem_of_filter in Hin as [? _].
  - intros Href t Hin. apply list_elem_of_filter in Hin as [Hne Hin].
    apply Href in Hin. apply list_elem_of_fmap in Hin as (c & Heq & Hcin).
    rewrite Heq. apply list_elem_of_fmap_2, list_elem_of_filter.
    split; [congruence|done].
Qed.

Lemma offline_delete_customer_cascades_witness :
  let w := mkWorld [mkCustomer "5" ∅ ∅; mkCustomer "6" ∅ ∅] []
             [mkTask "t1" "5" ∅; mkTask "t2" "6" ∅] [] [] ∅ ∅ 0 [] [] in
  t_customerId (mkTask "t2" "6" ∅)
    ∈ c_id <$> customers (exec (Offline.handleDeleteCustomer "5") w).
Proof.
  intros w.
  pose proof (offline_delete_customer_cascades w "5") as (_ & _ & _ & Href).
  apply Href.
  - intros t Ht. apply list_elem_of_In in Ht.
    destruct Ht as [<-|[<-|[]]]; apply (bool_decide_unpack _); vm_compute; exact I.
  - apply (bool_decide_unpack _). vm_compute. exact I.
Defined.

(** X21.  In the offline variant an update that names [data] replaces the
    whole [data] map of the targeted customers (a key the update does not
    name is lost), where the update of the backed variant merges; the
    customers under another identifier are untouched. *)
Theorem offline_update_replaces_data (w : World) (customerId : string)
    (updatedFields : PartialCustomer) (d : gmap string JsVal) :
  pc_data updatedFields = Some d →
  let w' := exec (Offline.handleUpdateCustomer customerId updatedFields) w in
  length (customers w') = length (customers w)
  ∧ ∀ (i : nat) (c : Customer), customers w !! i = Some c →
      (c_id c ≠ customerId → customers w' !! i = Some c)
      ∧ (c_id c = customerId →
         ∃ c', customers w' !! i = Some c'
               ∧ c_data c' = d
               ∧ ∀ k, d !! k = None → c_data c' !! k = None).
Proof.
  intros Hd w'.
  assert (customers w' = (λ c, if decide (c_id c = customerId)
                               then Offline.applyCustomerUpdate updatedFields c
                               else c) <$> customers w) as -> by reflexivity.
  split; [by rewrite length_fmap|].
  intros i c Hi. rewrite list_lookup_fmap, Hi. simpl. split; intros Hid.
  - by rewrite decide_False.
  - rewrite decide_True by done. eexists. split; [done|].
    unfold Offline.applyCustomerUpdate. rewrite Hd. simpl. done.
Qed.

Lemma offline_update_replaces_data_witness :
  let c := mkCustomer "5" ∅ {["phone" := VStr "090"; "memo" := VStr "old"]} in
  let w := mkWorld [c] [] [] [] [] ∅ ∅ 0 [] [] in
  let upd := mkPartialCustomer None ∅ (Some {["memo" := VStr "new"]}) in
  ∃ c', customers (exec (Offline.handleUpdateCustomer "5" upd) w) !! 0%nat = Some c'
        ∧ c_data c' !! "phone" = None.
Proof.
  intros c w upd.
  pose proof (offline_update_replaces_data w "5" upd {["memo" := VStr "new"]} eq_refl)
    as [_ H].
  destruct (H 0%nat c eq_refl) as [_ Hc].
  destruct (Hc eq_refl) as (c' & Hc' & _ & Hlost).
  exists c'. split; [exact Hc'|]. apply Hlost. reflexivity.
Defined.

(** ** A create and the change feed *)

(** X22.  When the change feed delivers the insert of the new row before
    the reply of the insert request is handled, and the server assigned
    its own identifier, the store ends with two records under that
    identifier: the echo is appended beside the optimistic record (whose
    identifier is still the local one), and the reply then swaps the
    optimistic record as well. *)
Theorem echo_before_reply_duplicates (w : World) (customerData : CustomerDraft)
    (rnd : Z) (iso : string) (data : RawCustomer) :
  let newId := customerLocalId (clock w) rnd in
  let returnedId := String_ (rc_id data) in
  returnedId ≠ newId →
  newId ∉ c_id <$> customers w → returnedId ∉ c_id <$> customers w →
  let w1 := exec (addCustomerOptimistic customerData rnd iso) w in
  let w2 := exec (handleCustomerChange (INSERT data)) w1 in
  let w3 := exec (addCustomerSettle newId (mkReply (Some data) None)) w2 in
  customers w2 = customers w ++ [newCustomer newId customerData (columns w) iso;
                                 normalize data]
  ∧ customers w3 = customers w ++ [normalize data; normalize data].
Proof.
  intros newId returnedId Hne Hnew Hret w1 w2 w3.
  assert (customers w2
          = customers w ++ [newCustomer newId customerData (columns w) iso;
                            normalize data]) as H2.
  { change (customers w2)
      with (customerChange (INSERT data)
              (customers w ++ [newCustomer newId customerData (columns w) iso])).
    destruct (customer_insert_deduplicates data
                (customers w ++ [newCustomer newId customerData (columns w) iso]))
      as [_ Happ].
    rewrite Happ; [by rewrite <- app_assoc|].
    rewrite fmap_app, not_elem_of_app. split; [done|].
    simpl. rewrite list_elem_of_singleton. done. }
  split; [done|].
  subst w3. rewrite (addCustomerSettle_swap w2 newId data Hne).
  cbn [customers]. rewrite H2, fmap_app. rewrite (replace_fresh c_id) by done.
  simpl. rewrite decide_True by done. rewrite decide_False; [done|].
  simpl. fold returnedId. done.
Qed.

Lemma echo_before_reply_duplicates_witness :
  let w := mkWorld [mkCustomer "41" ∅ ∅] [] [] [] [] ∅ ∅ 1000 [] [] in
  let yamada := mkRawCustomer (IdNum 42) {["name" := VStr "Yamada"]} ∅ in
  let draft := mkCustomerDraft {["name" := VStr "Yamada"]} ∅ in
  customers (exec (addCustomerSettle "c_1000_5" (mkReply (Some yamada) None))
               (exec (handleCustomerChange (INSERT yamada))
                  (exec (addCustomerOptimistic draft 5 "2026-01-01T00:00:00.000Z") w)))
  = customers w ++ [normalize yamada; normalize yamada].
Proof.
  intros w yamada draft.
  apply (echo_before_reply_duplicates w draft 5 "2026-01-01T00:00:00.000Z" yamada).
  - vm_compute. discriminate.
  - intros H. apply list_elem_of_In in H. vm_compute in H.
    destruct H as [H|[]]. discriminate H.
  - intros H. apply list_elem_of_In in H. vm_compute in H.
    destruct H as [H|[]]. discriminate H.
Defined.

(** X23.  Once the reply of a customer create has been handled, the echo of
    the insert on the change feed changes nothing: the store already holds
    a record under the row's identifier. *)
Theorem echo_after_reply_is_ignored (w : World) (customerData : CustomerDraft)
    (rnd : Z) (iso : string) (data : RawCustomer) :
  let w' := exec (handleAddCustomer customerData rnd iso (mkReply (Some data) None)) w in
  customers (exec (handleCustomerChange (INSERT data)) w') = customers w'.
Proof.
  intros w'.
  destruct (handleAddCustomer_confirmed w customerData rnd iso data)
    as (_ & _ & _ & _ & Hrec).
  fold w' in Hrec.
  change (customers (exec (handleCustomerChange (INSERT data)) w'))
    with (customerChange (INSERT data) (customers w')).
  by apply customer_insert_deduplicates.
Qed.

Lemma customerChange_filter_commute (payload : Change RawCustomer RawId)
    (x : string) (l : list Customer) :
  customerChangeId payload ≠ x →
  filter (λ c, c_id c ≠ x) (customerChange payload l)
  = customerChange payload (filter (λ c, c_id c ≠ x) l).
Proof.
  intros Hne. destruct payload as [new|new|old]; simpl in *.
  - assert (Exists (λ existing, c_id existing = String_ (rc_id new)) l
            ↔ Exists (λ existing, c_id existing = String_ (rc_id new))
                (filter (λ c, c_id c ≠ x) l)) as Hiff.
    { rewrite !Exists_exists. split.
      - intros (c & Hc & Hid). exists c. split; [|done].
        apply list_elem_of_filter. split; [congruence|done].
      - intros (c & Hc & Hid). exists c. split; [|done].
        by apply list_elem_of_filter in Hc as [_ ?]. }
    destruct (decide (Exists _ l)) as [Hin|Hout].
    + rewrite decide_True; [done|by apply Hiff].
    + rewrite decide_False by (by rewrite <- Hiff).
      rewrite filter_app, filter_cons_True; [done|]. simpl. done.
  - induction l as [|c l IH]; [done|]. rewrite fmap_cons.
    destruct (decide (c_id c = String_ (rc_id new))) as [Heq|Hneq].
    + rewrite (filter_cons_True _ (normalize new)) by (simpl; done).
      rewrite (filter_cons_True _ c) by congruence.
      rewrite fmap_cons, decide_True by done. by rewrite IH.
    + destruct (decide (c_id c ≠ x)) as [Hk|Hk].
      * rewrite !(filter_cons_True _ c) by done.
        rewrite fmap_cons, decide_False by done. by rewrite IH.
      * rewrite !(filter_cons_False _ c) by done. by rewrite IH.
  - rewrite !list_filter_filter. apply list_filter_iff. naive_solver.
Qed.

Lemma handleCustomerChanges_customers payloads w :
  customers (exec (handleCustomerChanges payloads) w)
  = foldl (λ l payload, customerChange payload l) (customers w) payloads
  ∧ pendingAdds (exec (handleCustomerChanges payloads) w) = pendingAdds w.
Proof.
  revert w. induction payloads as [|payload rest IH]; intros w; [done|].
  cbn [handleCustomerChanges]. rewrite exec_seq.
  destruct (IH (exec (handleCustomerChange payload) w)) as [-> ->]. done.
Qed.

(** X24.  A create whose insert fails leaves no trace in the store even
    when change-feed events are handled between the request and the reply:
    if the local identifier was fresh and none of the events is about it,
    the store after the rollback is the one the events alone would have
    produced, and the identifier is not pending. *)
Theorem failed_create_leaves_no_trace (w : World) (customerData : CustomerDraft)
    (rnd : Z) (iso message : string) (data : option RawCustomer)
    (payloads : list (Change RawCustomer RawId)) :
  let newId := customerLocalId (clock w) rnd in
  newId ∉ c_id <$> customers w →
  Forall (λ payload, customerChangeId payload ≠ newId) payloads →
  let w' := exec (addCustomerSettle newId (mkReply data (Some message)))
              (exec (handleCustomerChanges payloads)
                 (exec (addCustomerOptimistic customerData rnd iso) w)) in
  customers w' = customers (exec (handleCustomerChanges payloads) w)
  ∧ newId ∉ pendingAdds w'.
Proof.
  intros newId Hfresh Hevs w'.
  set (w1 := exec (addCustomerOptimistic customerData rnd iso) w) in *.
  set (w2 := exec (handleCustomerChanges payloads) w1) in *.
  assert (customers w' = filter (λ c, c_id c ≠ newId) (customers w2)
          ∧ pendingAdds w' = pendingAdds w2 ∖ {[newId]}) as [-> ->].
  { subst w'. by destruct data. }
  split; [|set_solver].
  subst w2.
  destruct (handleCustomerChanges_customers payloads w1) as [-> _].
  destruct (handleCustomerChanges_customers payloads w) as [-> _].
  change (customers w1)
    with (customers w ++ [newCustomer newId customerData (columns w) iso]).
  assert (filter (λ c, c_id c ≠ newId)
            (customers w ++ [newCustomer newId customerData (columns w) iso])
          = customers w) as Hstart.
  { rewrite filter_ne_snoc by done. by apply filter_ne_fresh. }
  revert Hstart.
  generalize (customers w ++ [newCustomer newId customerData (columns w) iso]).
  generalize (customers w).
  induction Hevs as [|payload rest Hp Hrest IH]; intros l0 l1 Hstart; simpl.
  - done.
  - apply IH. rewrite customerChange_filter_commute by done. by rewrite Hstart.
Qed.

Lemma failed_create_leaves_no_trace_witness :
  let w := mkWorld [mkCustomer "41" ∅ ∅] [] [] [] [] ∅ ∅ 1000 [] [] in
  let payloads : list (Change RawCustomer RawId) :=
    [INSERT (mkRawCustomer (IdNum 43) ∅ ∅); DELETE (IdNum 41)] in
  customers (exec (addCustomerSettle "c_1000_5" (mkReply None (Some "network error")))
               (exec (handleCustomerChanges payloads)
                  (exec (addCustomerOptimistic (mkCustomerDraft ∅ ∅) 5
                           "2026-01-01T00:00:00.000Z") w)))
  = customers (exec (handleCustomerChanges payloads) w).
Proof.
  intros w payloads.
  apply (failed_create_leaves_no_trace w (mkCustomerDraft ∅ ∅) 5
           "2026-01-01T00:00:00.000Z" "network error" None payloads).
  - intros H. apply list_elem_of_In in H. vm_compute in H.
    destruct H as [H|[]]. discriminate H.
  - repeat constructor; vm_compute; discriminate.
Defined.

(** ** What a drop can change *)

(** X25.  The drop handler hands nothing over exactly when no column is
    being dragged, the dragged identifier is empty or there is no drop
    index.  Whatever it hands over, for any column list, identifier and
    index, has the columns of the column list at the same places, changed
    in nothing but [order]. *)
Theorem column_drop_changes_only_order (columns : list Column)
    (draggingColumnId : option string) (dropIndex : option nat) :
  (handleDrop columns draggingColumnId dropIndex = None
   ↔ draggingColumnId = None ∨ draggingColumnId = Some "" ∨ dropIndex = None)
  ∧ ∀ final, handleDrop columns draggingColumnId dropIndex = Some final →
      length final = length columns
      ∧ withOrder 0 <$> final = withOrder 0 <$> columns.
Proof.
  unfold handleDrop.
  destruct draggingColumnId as [id|], dropIndex as [k|];
    try (split; [split; [tauto|done]|done]).
  - destruct (decide (id = "")) as [->|Hid].
    + split; [split; [tauto|done]|done].
    + destruct (spliceOut (findIndex id (sortedColumns columns))
                  (sortedColumns columns)) as [removed rest].
      split.
      * split; [done|]. intros [?|[?|?]]; congruence.
      * intros final [= <-]. split; [by rewrite length_fmap|].
        rewrite <- list_fmap_compose. by apply list_fmap_ext.
Qed.

Lemma column_drop_changes_only_order_witness :
  let a1 := mkColumn "a" "First" CText 0 None true in
  let a2 := mkColumn "a" "Second" CSelect 1 (Some ["x"]) false in
  withOrder 0 <$> [withOrder 0 a1; withOrder 0 a2] = withOrder 0 <$> [a1; a2].
Proof.
  intros a1 a2.
  apply (column_drop_changes_only_order [a1; a2] (Some "a") (Some 1%nat)).
  reflexivity.
Defined.
